(** * Reachable canonical form of a SISO state-space system

    A shallow embedding of [control/canonical.py] ([canonical_form],
    [reachable_form]) and a verification of the properties its
    specification states.

    Scalars.  numpy's float64 entries are idealised as the elements of an
    arbitrary field [F] with exact arithmetic: rounding is not part of the
    model.  Matrices are MathComp matrices wrapped with their run-time
    shape, since numpy checks shapes when an operation runs.

    Store.  Python objects are cells of a heap: [StateSpace] instances hold
    references to the arrays bound to their attributes, and item assignment
    ([a[i, j] = v]) updates an array cell in place. *)

From Stdlib Require Import String.
From HB Require Import structures.
From mathcomp Require Import ssreflect ssrfun ssrbool eqtype ssrnat seq.
From mathcomp Require Import choice fintype finfun bigop ssralg poly.
From mathcomp Require Import matrix mxpoly ssrint rat.

Set Implicit Arguments.
Unset Strict Implicit.
Unset Printing Implicit Defensive.

Import GRing.Theory.
Local Open Scope ring_scope.

(** ** Exceptions and results *)

Inductive exn : Type :=
  | ControlNotImplemented of string   (* control.exception *)
  | IndexError                        (* index out of bounds *)
  | ValueError                        (* shape mismatch, bad argument *)
  | LinAlgError of string             (* numpy.linalg *)
  | TypeError.                        (* operation on the wrong kind of object *)

Inductive result (T : Type) : Type :=
  | Ok of T
  | Raise of exn.

Arguments Ok {T} _.
Arguments Raise {T} _.

Definition rbind {T U} (r : result T) (f : T -> result U) : result U :=
  match r with
  | Ok v => f v
  | Raise e => Raise e
  end.

(** ** Object references and [StateSpace] instances *)

Definition loc := nat.
Bind Scope nat_scope with loc.

(** Modelled from the spec: the class [StateSpace] of [control/statesp.py]
    is not part of the sources at hand.  Following section 3 of the
    specification an instance carries the four matrices [A], [B], [C], [D]
    (as references to array objects) and the state, input and output
    counts. *)
Module StateSpace.
Record t : Type := Build {
  A : loc;
  B : loc;
  C : loc;
  D : loc;
  states : nat;
  inputs : nat;
  outputs : nat
}.
Definition set_A (s : t) (l : loc) : t :=
  Build l (B s) (C s) (D s) (states s) (inputs s) (outputs s).
Definition set_B (s : t) (l : loc) : t :=
  Build (A s) l (C s) (D s) (states s) (inputs s) (outputs s).
Definition set_C (s : t) (l : loc) : t :=
  Build (A s) (B s) l (D s) (states s) (inputs s) (outputs s).
End StateSpace.

Section Numpy.

Variable F : fieldType.

(** ** numpy arrays and the numpy functions the module imports *)

Record ndarray : Type := NdArray {
  nrows : nat;
  ncols : nat;
  data : 'M[F]_(nrows, ncols)
}.

Definition shape (a : ndarray) : nat * nat := (nrows a, ncols a).

Definition zeros (s : nat * nat) : ndarray :=
  NdArray (const_mx 0 : 'M[F]_(s.1, s.2)).

(** [a[i, j]]: reading an entry checks both indices. *)
Definition getitem (a : ndarray) (i j : nat) : result F :=
  match insub i, insub j with
  | Some i', Some j' => Ok (data a i' j')
  | _, _ => Raise IndexError
  end.

(** [a[i, j] = v] computes the updated array (the store update is
    [setitem_at] below). *)
Definition setitem (a : ndarray) (i j : nat) (v : F) : result ndarray :=
  match insub i, insub j with
  | Some i', Some j' =>
      Ok (NdArray (\matrix_(k, l)
                     if (k == i') && (l == j') then v else data a k l))
  | _, _ => Raise IndexError
  end.

(** [p[i]] on a one-dimensional array. *)
Definition getitem1 (p : seq F) (i : nat) : result F :=
  if i < size p then Ok (nth 0 p i) else Raise IndexError.

(** [a * b] on [numpy.matrix] operands is the matrix product. *)
Definition matmul (a b : ndarray) : result ndarray :=
  match ncols a =P nrows b with
  | ReflectT e => Ok (NdArray (data a *m castmx (esym e, erefl) (data b)))
  | ReflectF _ => Raise ValueError
  end.

(** [numpy.linalg.inv]: a singular argument raises [LinAlgError]. *)
Definition inv (a : ndarray) : result ndarray :=
  match nrows a =P ncols a with
  | ReflectT e =>
      let M : 'M[F]_(nrows a) := castmx (erefl, esym e) (data a) in
      if M \in unitmx then Ok (NdArray (invmx M))
      else Raise (LinAlgError "Singular matrix")
  | ReflectF _ =>
      Raise (LinAlgError "Last 2 dimensions of the array must be square")
  end.

(** [numpy.poly] on a non-empty square matrix: the coefficients of its
    characteristic polynomial, highest degree first. *)
Definition poly (a : ndarray) : result (seq F) :=
  match nrows a =P ncols a with
  | ReflectT e =>
      if nrows a == 0%N then Raise ValueError
      else Ok (rev (char_poly (castmx (erefl, esym e) (data a))))
  | ReflectF _ => Raise ValueError
  end.

(** [numpy.hstack] of two matrices with the same number of rows. *)
Definition hstack (a b : ndarray) : result ndarray :=
  match nrows b =P nrows a with
  | ReflectT e => Ok (NdArray (row_mx (data a) (castmx (e, erefl) (data b))))
  | ReflectF _ => Raise ValueError
  end.

(** [a ** k] on a square [numpy.matrix]. *)
Definition matrix_power (a : ndarray) (k : nat) : result ndarray :=
  match nrows a =P ncols a with
  | ReflectT e =>
      let M : 'M[F]_(nrows a) := castmx (erefl, esym e) (data a) in
      Ok (NdArray (iter k (mulmx M) 1%:M))
  | ReflectF _ => Raise (LinAlgError "input must be a square array")
  end.

(** Modelled from the spec: [ctrb] of [control/statefbk.py] is not part of
    the sources at hand.  Section 3 and section 6 of the specification
    define the controllability matrix of [(A, B)] as the horizontal
    concatenation of [B], [A B], ..., [A^(n-1) B], with [n] the order of
    [A]. *)
Definition ctrb (a b : ndarray) : result ndarray :=
  foldl (fun acc i =>
           rbind acc (fun w =>
           rbind (matrix_power a i) (fun ai =>
           rbind (matmul ai b) (fun v => hstack w v))))
        (Ok b) (iota 1 (nrows a).-1).

(** ** The store *)

Inductive obj : Type :=
  | Array of ndarray
  | System of StateSpace.t.

Definition heap := seq obj.

Definition heap_get (h : heap) (l : loc) : option obj :=
  nth None (map Some h) l.

Definition heap_set (h : heap) (l : loc) (o : obj) : heap :=
  if l < size h then set_nth o h l o else h.

(** Computations thread the store and may raise; the store is returned
    in both cases. *)
Definition Py (T : Type) : Type := heap -> result T * heap.

Definition ret {T} (v : T) : Py T := fun h => (Ok v, h).

Definition raise {T} (e : exn) : Py T := fun h => (Raise e, h).

Definition bind {T U} (m : Py T) (f : T -> Py U) : Py U :=
  fun h => match m h with
           | (Ok v, h') => f v h'
           | (Raise e, h') => (Raise e, h')
           end.

Definition lift {T} (r : result T) : Py T := fun h => (r, h).

Notation "x <- m ;; k" := (bind m (fun x => k))
  (at level 100, m at next level, right associativity).
Notation "m ;;; k" := (bind m (fun _ => k))
  (at level 100, right associativity).

Definition load_system (x : loc) : Py StateSpace.t :=
  fun h => match heap_get h x with
           | Some (System s) => (Ok s, h)
           | _ => (Raise TypeError, h)
           end.

Definition load_array (l : loc) : Py ndarray :=
  fun h => match heap_get h l with
           | Some (Array a) => (Ok a, h)
           | _ => (Raise TypeError, h)
           end.

Definition new (o : obj) : Py loc := fun h => (Ok (size h), rcons h o).

Definition store (l : loc) (o : obj) : Py unit :=
  fun h => (Ok tt, heap_set h l o).

(** [x.attr] where the attribute holds an array. *)
Definition attr_array (x : loc) (attr : StateSpace.t -> loc) : Py ndarray :=
  s <- load_system x ;; load_array (attr s).

(** [z.attr = v] for a freshly computed array [v]. *)
Definition assign_attr (z : loc)
    (upd : StateSpace.t -> loc -> StateSpace.t) (v : ndarray) : Py unit :=
  l <- new (Array v) ;;
  s <- load_system z ;;
  store z (System (upd s l)).

(** [z.attr[i, j] = v]: an in-place update of the array the attribute
    refers to. *)
Definition setitem_at (z : loc) (attr : StateSpace.t -> loc)
    (i j : nat) (v : F) : Py unit :=
  s <- load_system z ;;
  a <- load_array (attr s) ;;
  a' <- lift (setitem a i j v) ;;
  store (attr s) (Array a').

(** [for i in range(lo, lo + len(l))]. *)
Fixpoint for_ (l : seq nat) (body : nat -> Py unit) : Py unit :=
  match l with
  | [::] => ret tt
  | i :: l' => body i ;;; for_ l' body
  end.

(** ** Collaborators of the module *)

(** Modelled from the spec: [issiso] of [control/lti.py] is not part of the
    sources at hand.  Section 6: true iff the input count is 1 and the
    output count is 1. *)
Definition issiso (x : loc) : Py bool :=
  s <- load_system x ;;
  ret ((StateSpace.inputs s == 1%N) && (StateSpace.outputs s == 1%N)).

(** Modelled from the spec: the copy constructor [StateSpace(xsys)] is not
    part of the sources at hand.  Section 6: the copy has independent
    storage for [A], [B] and [C], and a [D] that is either shared with the
    original or copied; [share_D] selects which. *)
Variable share_D : bool.

Definition StateSpace_copy (x : loc) : Py loc :=
  s <- load_system x ;;
  a <- load_array (StateSpace.A s) ;;
  b <- load_array (StateSpace.B s) ;;
  c <- load_array (StateSpace.C s) ;;
  la <- new (Array a) ;;
  lb <- new (Array b) ;;
  lc <- new (Array c) ;;
  ld <- (if share_D then ret (StateSpace.D s)
         else d <- load_array (StateSpace.D s) ;; new (Array d)) ;;
  new (System (StateSpace.Build la lb lc ld (StateSpace.states s)
                 (StateSpace.inputs s) (StateSpace.outputs s))).

(** ** [control/canonical.py] *)

(** The body of the loop of [reachable_form]:
<<
    zsys.A[0, i] = -Apoly[i+1] / Apoly[0]
    if (i+1 < xsys.states):
        zsys.A[i+1, i] = 1
>> *)
Definition loop_body (xsys zsys : loc) (Apoly : seq F) (i : nat) : Py unit :=
  p1 <- lift (getitem1 Apoly i.+1) ;;
  p0 <- lift (getitem1 Apoly 0) ;;
  setitem_at zsys StateSpace.A 0 i (- p1 / p0) ;;;
  xs <- load_system xsys ;;
  if i.+1 < StateSpace.states xs
  then setitem_at zsys StateSpace.A i.+1 i 1
  else ret tt.

Definition reachable_form (xsys : loc) : Py (loc * ndarray) :=
  (* Check to make sure we have a SISO system *)
  siso <- issiso xsys ;;
  if ~~ siso then
    raise (ControlNotImplemented
             "Canonical forms for MIMO systems not yet supported")
  else
  (* Create a new system, starting with a copy of the old one *)
  zsys <- StateSpace_copy xsys ;;
  (* Generate the system matrices for the desired canonical form *)
  xB <- attr_array xsys StateSpace.B ;;
  assign_attr zsys StateSpace.set_B (zeros (shape xB)) ;;;
  setitem_at zsys StateSpace.B 0 0 1 ;;;
  xA <- attr_array xsys StateSpace.A ;;
  assign_attr zsys StateSpace.set_A (zeros (shape xA)) ;;;
  xA <- attr_array xsys StateSpace.A ;;
  Apoly <- lift (poly xA) ;;
  xs <- load_system xsys ;;
  for_ (iota 0 (StateSpace.states xs)) (loop_body xsys zsys Apoly) ;;;
  (* Compute the reachability matrices for each set of states *)
  xA <- attr_array xsys StateSpace.A ;;
  xB <- attr_array xsys StateSpace.B ;;
  Wrx <- lift (ctrb xA xB) ;;
  zA <- attr_array zsys StateSpace.A ;;
  zB <- attr_array zsys StateSpace.B ;;
  Wrz <- lift (ctrb zA zB) ;;
  (* Transformation from one form to another *)
  iWrx <- lift (inv Wrx) ;;
  Tzx <- lift (matmul Wrz iWrx) ;;
  (* Finally, compute the output matrix *)
  xC <- attr_array xsys StateSpace.C ;;
  iTzx <- lift (inv Tzx) ;;
  zC <- lift (matmul xC iTzx) ;;
  assign_attr zsys StateSpace.set_C zC ;;;
  ret (zsys, Tzx).

Definition canonical_form (xsys : loc) (form : string) : Py (loc * ndarray) :=
  (* Call the appropriate tranformation function *)
  if String.eqb form "reachable" then reachable_form xsys
  else raise (ControlNotImplemented
                (String.append "Canonical form '"
                   (String.append form "' not yet implemented"))).


(** * Verification *)

(** ** The numpy functions on arrays of a known shape *)

Lemma nd_cast m n n2 (e : n = n2) (X : 'M[F]_(m, n)) :
  NdArray X = NdArray (castmx (erefl, e) X).
Proof. by case: _ / e; rewrite castmx_id. Qed.

Lemma matmulE m n p (X : 'M[F]_(m, n)) (Y : 'M[F]_(n, p)) :
  matmul (NdArray X) (NdArray Y) = Ok (NdArray (X *m Y)).
Proof.
rewrite /matmul /=; case: eqP => // e.
by rewrite (eq_axiomK e) castmx_id.
Qed.

Lemma invE n (X : 'M[F]_n) :
  inv (NdArray X) =
  if X \in unitmx then Ok (NdArray (invmx X))
  else Raise (LinAlgError "Singular matrix").
Proof.
rewrite /inv /=; case: eqP => // e.
by rewrite (eq_axiomK e) castmx_id.
Qed.

Lemma polyE n (X : 'M[F]_n.+1) : poly (NdArray X) = Ok (rev (char_poly X)).
Proof.
rewrite /poly /=; case: eqP => // e.
by rewrite (eq_axiomK e) castmx_id.
Qed.

Lemma matrix_powerE n (X : 'M[F]_n.+1) k :
  matrix_power (NdArray X) k = Ok (NdArray (X ^+ k)).
Proof.
rewrite /matrix_power /=; case: eqP => // e.
rewrite (eq_axiomK e) castmx_id; congr (Ok (NdArray _)).
by elim: k => [|k IH]; rewrite ?expr0 // iterS IH exprS.
Qed.

Lemma hstackE m n1 n2 (X : 'M[F]_(m, n1)) (Y : 'M[F]_(m, n2)) :
  hstack (NdArray X) (NdArray Y) = Ok (NdArray (row_mx X Y)).
Proof.
rewrite /hstack /=; case: eqP => // e.
by rewrite (eq_axiomK e) castmx_id.
Qed.

Lemma getitemE m n (X : 'M[F]_(m, n)) (i : 'I_m) (j : 'I_n) :
  getitem (NdArray X) i j = Ok (X i j).
Proof. by rewrite /getitem /= !valK. Qed.

Lemma setitemE m n (X : 'M[F]_(m, n)) (i : 'I_m) (j : 'I_n) v :
  setitem (NdArray X) i j v =
  Ok (NdArray (\matrix_(k, l) if (k == i) && (l == j) then v else X k l)).
Proof. by rewrite /setitem /= !valK. Qed.

Lemma setitem_rows0 n (X : 'M[F]_(0, n)) i j v :
  setitem (NdArray X) i j v = Raise IndexError.
Proof. by rewrite /setitem /= insubF. Qed.

Lemma getitem1E (p : seq F) i :
  i < size p -> getitem1 p i = Ok (nth 0 p i).
Proof. by rewrite /getitem1 => ->. Qed.

(** ** Reachability matrices and the companion form

    The algebra behind the transformation, for a state matrix [M] of
    order [n = n'.+1] and an input column [b]. *)

Section Core.

Variable n' : nat.
Local Notation n := n'.+1.
Implicit Types (M : 'M[F]_n) (b : 'cV[F]_n) (p : {poly F}).

(** The reachability matrix: column [j] is [M ^+ j *m b]. *)
Definition krylov M b : 'M[F]_n := \matrix_(i, j) (M ^+ j *m b) i 0.

Definition reach_A p : 'M[F]_n :=
  \matrix_(i, j) (if i == 0 :> nat then - p`_(n - j.+1) / p`_n
                  else if i == j.+1 :> nat then 1 else 0).

Definition reach_B : 'cV[F]_n := \matrix_(i, j) (if i == 0 :> nat then 1 else 0).

Lemma col_krylov M b (j : 'I_n) : col j (krylov M b) = M ^+ j *m b.
Proof. by apply/colP => i; rewrite !mxE. Qed.

Lemma horner_mx_sum M p :
  horner_mx M p = \sum_(i < size p) p`_i *: M ^+ i.
Proof.
rewrite -[p in LHS]coefK poly_def rmorph_sum /=.
by apply: eq_bigr => i _; rewrite linearZ /= rmorphXn /= horner_mx_X.
Qed.

(** The top power of [M] in terms of the lower ones. *)
Lemma top_power M p :
  p \is monic -> size p = n.+1 -> horner_mx M p = 0 ->
  M ^+ n = - \sum_(i < n) p`_i *: M ^+ i.
Proof.
move=> /monicP mp sp; rewrite horner_mx_sum sp big_ord_recr /=.
move: mp; rewrite lead_coefE sp /= => ->; rewrite scale1r => /eqP.
by rewrite addrC addr_eq0 => /eqP.
Qed.

Definition ccomp p : 'M[F]_n :=
  \matrix_(i, j) (if j == n' :> nat then - p`_i else if i == j.+1 :> nat then 1 else 0).

Lemma eq_by_cols m (X Y : 'M[F]_(m, n)) :
  (forall j, col j X = col j Y) -> X = Y.
Proof.
move=> h; apply/matrixP => i j.
by move: (congr1 (fun Z : 'cV_m => Z i ord0) (h j)); rewrite !mxE.
Qed.

Lemma col_ccomp_lt p (j : 'I_n) (lt : j.+1 < n) :
  col j (ccomp p) = delta_mx (Ordinal lt) 0.
Proof.
apply/colP => i; rewrite !mxE /= eqxx andbT.
have -> : (j == n' :> nat) = false by apply/negbTE; rewrite neq_ltn -ltnS lt.
by rewrite -val_eqE /=; case: eqP.
Qed.

Lemma col_ccomp_last p (j : 'I_n) : j = n' :> nat ->
  col j (ccomp p) = - \sum_(i < n) p`_i *: delta_mx i 0.
Proof.
move=> ej; apply/colP => i; rewrite !mxE ej eqxx summxE.
rewrite (bigD1 i) //= !mxE !eqxx mulr1 big1 ?addr0 // => k ki.
by rewrite !mxE eqxx andbT eq_sym (negbTE ki) mulr0.
Qed.

Lemma krylov_shift M b p :
  p \is monic -> size p = n.+1 -> horner_mx M p = 0 ->
  M *m krylov M b = krylov M b *m ccomp p.
Proof.
move=> mp sp hp; apply: eq_by_cols => j.
rewrite colE -mulmxA -colE col_krylov colE -mulmxA -colE.
have [lt|] := ltnP j.+1 n.
  rewrite (col_ccomp_lt p lt) -colE col_krylov /= exprS mulmxA.
  by [].
rewrite ltnS => le; have ej : j = n' :> nat.
  by apply/eqP; rewrite eqn_leq le andbT -ltnS.
rewrite col_ccomp_last // mulmxN mulmx_sumr mulmxA -[M *m _]/(M * _) -exprS ej.
rewrite (top_power mp sp hp) mulNmx mulmx_suml; congr (- _).
apply: eq_bigr => i _.
by rewrite -scalemxAl -scalemxAr -colE col_krylov.
Qed.

(** Unit row vectors indexed by plain naturals. *)
Definition erow (k : nat) : 'rV[F]_n := \row_j (j == k :> nat)%:R.

Lemma erow_delta (i : 'I_n) : delta_mx 0 i = erow i.
Proof. by apply/rowP => j; rewrite !mxE eqxx /= -val_eqE. Qed.

Lemma erow_mul k (X : 'M[F]_n) (lt : k < n) : erow k *m X = row (Ordinal lt) X.
Proof. by rewrite rowE erow_delta. Qed.

Lemma erowS_reach p k : k.+1 < n -> erow k.+1 *m reach_A p = erow k.
Proof.
move=> lt; rewrite (erow_mul _ lt); apply/rowP => j.
by rewrite !mxE /= eqSS eq_sym; case: eqP.
Qed.

Lemma erow0_reach p : p \is monic -> size p = n.+1 ->
  erow 0 *m reach_A p = \row_j - p`_(n' - j).
Proof.
move=> /monicP mp sp; rewrite (erow_mul _ (ltn0Sn n')); apply/rowP => j.
have pn : p`_n = 1 by rewrite -mp lead_coefE sp.
by rewrite !mxE /= subSS pn divr1.
Qed.

Lemma erow_pow p k : k <= n' -> erow n' *m reach_A p ^+ k = erow (n' - k).
Proof.
elim: k => [|k IH] le; first by rewrite expr0 mulmx1 subn0.
rewrite exprSr mulmxA IH ?(ltnW le) // -[(n' - k)%N]prednK ?subn_gt0 //.
by rewrite erowS_reach ?subnS // prednK ?subn_gt0 // ltnS leq_subr.
Qed.

Lemma reach_A_root p : p \is monic -> size p = n.+1 ->
  horner_mx (reach_A p) p = 0.
Proof.
move=> mp sp; set R := reach_A p; set H := horner_mx R p.
have top : erow n' *m H = 0.
  rewrite /H horner_mx_sum mulmx_sumr sp big_ord_recr /=.
  rewrite -scalemxAr exprSr mulmxA erow_pow // subnn erow0_reach //.
  move/monicP: (mp); rewrite lead_coefE sp /= => ->; rewrite scale1r.
  apply/rowP => j; rewrite !mxE summxE (bigD1 (rev_ord j)) //=.
  rewrite -scalemxAr erow_pow /= ?subSS ?leq_subr // !mxE.
  have lej : j <= n' by rewrite -ltnS.
  rewrite subKn // eqxx mulr1 big1 ?addr0 ?subrr // => i ij.
  have lei : i <= n' by rewrite -ltnS.
  rewrite -scalemxAr erow_pow // !mxE.
  suff -> : (j == (n' - i)%N :> nat) = false by rewrite mulr0.
  by apply: contraNF ij => /eqP ej; rewrite -val_eqE /= subSS ej subKn.
apply/row_matrixP => i; rewrite row0 rowE erow_delta.
have -> : (i : nat) = (n' - (n' - i))%N by rewrite subKn // -ltnS.
rewrite -(erow_pow p) ?leq_subr // -/R -mulmxA.
have cHR : comm_mx H (R ^+ (n' - i)).
  by apply: comm_horner_mx; exact: (commrX _ (commr_refl R)).
by rewrite -cHR mulmxA top mul0mx.
Qed.


(** The reachability matrix of the canonical pair is upper unitriangular. *)
Lemma krylov_reach_trig p (i : 'I_n) (j : nat) : j <= i ->
  (reach_A p ^+ j *m reach_B) i 0 = (i == j :> nat)%:R.
Proof.
elim: j i => [|j IH] i le.
  by rewrite expr0 mul1mx !mxE; case: eqP.
rewrite exprS -mulmxA mxE.
have lt : i.-1 < n by rewrite (leq_ltn_trans (leq_pred i)).
have i0 : (i == 0 :> nat) = false.
  by apply/negbTE; rewrite -lt0n (leq_trans _ le).
have ip : i.-1.+1 = i by rewrite prednK // (leq_trans _ le).
have z (k : 'I_n) : k != Ordinal lt ->
    reach_A p i k * (reach_A p ^+ j *m reach_B) k 0 = 0.
  move=> ki; rewrite !mxE i0.
  have -> : (i == k.+1 :> nat) = false.
    by apply: contraNF ki => /eqP ek; rewrite -val_eqE /= ek.
  by rewrite mul0r.
rewrite (bigD1 (Ordinal lt)) //= (big1 _ _ _ z) addr0.
have le' : j <= Ordinal lt by rewrite /= -ltnS ip.
rewrite (IH _ le') /=.
by rewrite !mxE /= ip eqxx i0 mul1r -eqSS ip.
Qed.

Lemma krylov_reach_unit p : krylov (reach_A p) reach_B \in unitmx.
Proof.
have trig : is_trig_mx (krylov (reach_A p) reach_B)^T.
  apply/is_trig_mxP => i j lt; rewrite 2!mxE krylov_reach_trig ?(ltnW lt) //.
  by rewrite gtn_eqF.
rewrite -unitmx_tr unitmxE (det_trig trig) big1 ?unitr1 // => i _.
by rewrite 2!mxE krylov_reach_trig // eqxx.
Qed.

Section Transform.
Variables (M : 'M[F]_n) (b : 'cV[F]_n).
Hypothesis reach : krylov M b \in unitmx.

Let p := char_poly M.
Let Az := reach_A p.
Let Wrx := krylov M b.
Let Wrz := krylov Az reach_B.
Let Tzx := Wrz *m invmx Wrx.

Lemma Tzx_unit : Tzx \in unitmx.
Proof. by rewrite unitmx_mul krylov_reach_unit unitmx_inv. Qed.

Lemma krylov_col0 X (c : 'cV[F]_n) : krylov X c *m delta_mx 0 0 = c.
Proof. by rewrite -colE col_krylov expr0 mul1mx. Qed.

Lemma Tzx_B : Tzx *m b = reach_B.
Proof.
rewrite /Tzx -[in LHS](krylov_col0 M b) -/Wrx -mulmxA (mulKmx reach).
exact: krylov_col0.
Qed.

Lemma Tzx_A : Tzx *m M *m invmx Tzx = Az.
Proof.
have mp := char_poly_monic M; have sp := size_char_poly M.
have hx := krylov_shift b mp sp (Cayley_Hamilton M).
have hz := krylov_shift reach_B mp sp (reach_A_root mp sp).
have eM : invmx Wrx *m M = ccomp p *m invmx Wrx.
  rewrite -[LHS](mulmxK reach) -[_ *m M *m _]mulmxA hx.
  by rewrite !mulmxA (mulVmx reach) mul1mx.
have -> : Tzx *m M = Az *m Tzx.
  by rewrite /Tzx -!mulmxA eM !mulmxA -hz.
by rewrite (mulmxK Tzx_unit).
Qed.

End Transform.


(** [ctrb] computes the reachability matrix. *)
Definition kry M b (j : nat) : 'M[F]_(n, j) :=
  \matrix_(i, l) (M ^+ l *m b) i 0.

Lemma kry_step M b j :
  NdArray (row_mx (kry M b j) (M ^+ j *m b)) = NdArray (kry M b j.+1).
Proof.
rewrite (nd_cast (addn1 j)); congr NdArray; apply/matrixP => i l.
rewrite castmxE /= cast_ord_id mxE; case: splitP => l2 /= el; rewrite !mxE.
  by rewrite el.
by rewrite el ord1 addn0.
Qed.

Lemma ctrb_fold M b j k :
  foldl (fun acc i =>
           rbind acc (fun w =>
           rbind (matrix_power (NdArray M) i) (fun ai =>
           rbind (matmul ai (NdArray b)) (fun v => hstack w v))))
        (Ok (NdArray (kry M b j))) (iota j k)
  = Ok (NdArray (kry M b (j + k))).
Proof.
elim: k j => [|k IH] j /=; first by rewrite addn0.
by rewrite matrix_powerE /= matmulE /= hstackE kry_step IH addSnnS.
Qed.

Lemma ctrbE M b : ctrb (NdArray M) (NdArray b) = Ok (NdArray (krylov M b)).
Proof.
have e : NdArray b = NdArray (kry M b 1).
  by congr NdArray; apply/matrixP => i l; rewrite mxE ord1 expr0 mul1mx.
rewrite /ctrb /= [X in foldl _ (Ok X)]e ctrb_fold add1n.
by congr (Ok (NdArray _)); apply/matrixP => i j; rewrite !mxE.
Qed.

End Core.

(** ** The store: lookups and updates *)

Lemma heap_get_size h x o : heap_get h x = Some o -> x < size h.
Proof.
rewrite /heap_get; case: ltnP => // le.
by rewrite nth_default // size_map.
Qed.

Lemma heap_get_cat_old h l x o :
  heap_get h x = Some o -> heap_get (h ++ l) x = Some o.
Proof.
by move=> e; rewrite /heap_get map_cat nth_cat size_map (heap_get_size e).
Qed.

Lemma heap_get_cat_new h l k : heap_get (h ++ l) (size h + k) = heap_get l k.
Proof.
by rewrite /heap_get map_cat nth_cat size_map ltnNge leq_addr /= addKn.
Qed.

Lemma heap_set_cat_new h l k o :
  heap_set (h ++ l) (size h + k) o = h ++ heap_set l k o.
Proof.
rewrite /heap_set size_cat ltn_add2l; case: ifP => // lt.
apply: (@eq_from_nth _ o) => [|i _].
  rewrite size_set_nth !size_cat size_set_nth (maxn_idPr lt).
  by apply/maxn_idPr; rewrite ltn_add2l.
rewrite nth_set_nth /= !nth_cat nth_set_nth /=.
case: ltnP => [lti|lei].
  by rewrite ltn_eqF // (leq_trans lti) // leq_addr.
by rewrite -{1}(subnKC lei) eqn_add2l.
Qed.

Lemma heap_get_cat_new0 h l : heap_get (h ++ l) (size h) = heap_get l 0.
Proof. by rewrite -[X in heap_get _ X]addn0 heap_get_cat_new. Qed.

Lemma heap_set_cat_new0 h l o :
  heap_set (h ++ l) (size h) o = h ++ heap_set l 0 o.
Proof. by rewrite -[X in heap_set _ X]addn0 heap_set_cat_new. Qed.

Lemma heap_set_cons0 (o1 : obj) l o : heap_set (o1 :: l) 0 o = o :: l.
Proof. by []. Qed.

Lemma heap_set_consS (o1 : obj) l k o :
  heap_set (o1 :: l) k.+1 o = o1 :: heap_set l k o.
Proof. by rewrite /heap_set /= ltnS; case: ifP. Qed.

Lemma heap_get_set h l o x :
  l < size h ->
  heap_get (heap_set h l o) x = if x == l then Some o else heap_get h x.
Proof.
move=> lt; rewrite /heap_set lt /heap_get.
have sz : size (set_nth o h l o) = size h by rewrite size_set_nth (maxn_idPr lt).
case: (ltnP x (size h)) => [ltx|lex].
  by rewrite !(nth_map o) ?sz // nth_set_nth /=; case: eqP.
rewrite !nth_default ?size_map ?sz // gtn_eqF //.
exact: leq_trans lt lex.
Qed.

Lemma heap_set_set h l o1 o2 :
  heap_set (heap_set h l o1) l o2 = heap_set h l o2.
Proof.
rewrite /heap_set; case: (ltnP l (size h)) => [lt|le]; last by rewrite ltnNge le.
rewrite size_set_nth (maxn_idPr lt) lt.
have sz o : size (set_nth o h l o) = size h.
  by rewrite size_set_nth (maxn_idPr lt).
apply: (@eq_from_nth _ o2) => [|i].
  by rewrite !size_set_nth maxnA maxnn.
rewrite !size_set_nth maxnA maxnn (maxn_idPr lt) => lti.
rewrite !nth_set_nth /=; case: ifP => // ne.
rewrite (set_nth_default o1) ?sz // nth_set_nth /= ne.
exact: set_nth_default.
Qed.

Lemma heap_set_same h l o : heap_get h l = Some o -> heap_set h l o = h.
Proof.
move=> e; have lt := heap_get_size e; rewrite /heap_set lt.
apply: (@eq_from_nth _ o) => [|i _].
  by rewrite size_set_nth (maxn_idPr lt).
rewrite nth_set_nth /=; case: eqP => // ->.
by move: e; rewrite /heap_get (nth_map o) // => -[].
Qed.

Lemma load_systemE h x s :
  heap_get h x = Some (System s) -> load_system x h = (Ok s, h).
Proof. by rewrite /load_system => ->. Qed.

Lemma load_arrayE h l a :
  heap_get h l = Some (Array a) -> load_array l h = (Ok a, h).
Proof. by rewrite /load_array => ->. Qed.

Lemma attr_arrayE h x attr s a :
  heap_get h x = Some (System s) -> heap_get h (attr s) = Some (Array a) ->
  attr_array x attr h = (Ok a, h).
Proof.
by move=> ex ea; rewrite /attr_array /bind (load_systemE ex) (load_arrayE ea).
Qed.

Lemma setitem_nat m n (X : 'M[F]_(m, n)) i j v :
  i < m -> j < n ->
  setitem (NdArray X) i j v =
  Ok (NdArray (\matrix_(k, l)
                 if (k == i :> nat) && (l == j :> nat) then v else X k l)).
Proof.
by move=> hi hj; rewrite /setitem /= !insubT.
Qed.

Lemma setitem_atE h z attr s m n (X : 'M[F]_(m, n)) i j v :
  heap_get h z = Some (System s) ->
  heap_get h (attr s) = Some (Array (NdArray X)) ->
  i < m -> j < n ->
  setitem_at z attr i j v h =
  (Ok tt,
   heap_set h (attr s)
     (Array (NdArray (\matrix_(k, l)
        if (k == i :> nat) && (l == j :> nat) then v else X k l)))).
Proof.
move=> ez ea hi hj.
rewrite /setitem_at /bind (load_systemE ez) (load_arrayE ea) /lift.
by rewrite setitem_nat.
Qed.

(** ** The loop that fills the target [A] *)

(** The matrix the loop builds from the coefficient list [p] (highest
    degree first): first row [- p[j+1] / p[0]], ones below the diagonal. *)
Definition companion_of (p : seq F) (n : nat) : 'M[F]_n :=
  \matrix_(i, j) (if i == 0%N :> nat then - nth 0 p j.+1 / nth 0 p 0
                  else if i == j.+1 :> nat then 1 else 0).

(** Columns [k .. k+m-1] filled, the others as in [Z]. *)
Definition fill (p : seq F) n (Z : 'M[F]_n) (k m : nat) : 'M[F]_n :=
  \matrix_(i, j)
    (if (k <= j < k + m) && ((i == 0%N :> nat) || (i == j.+1 :> nat))
     then companion_of p n i j else Z i j).

Lemma heap_get_neq h x l s a :
  heap_get h x = Some (System s) -> heap_get h l = Some (Array a) ->
  (x == l) = false.
Proof. by move=> ex el; apply/eqP => e; move: ex; rewrite e el. Qed.

Lemma loop_bodyE H xsys zsys xs zs p n (Z : 'M[F]_n) k :
  heap_get H xsys = Some (System xs) -> StateSpace.states xs = n ->
  heap_get H zsys = Some (System zs) ->
  heap_get H (StateSpace.A zs) = Some (Array (NdArray Z)) ->
  size p = n.+1 -> k < n ->
  loop_body xsys zsys p k H =
  (Ok tt, heap_set H (StateSpace.A zs) (Array (NdArray (fill p Z k 1)))).
Proof.
move=> ex en ez ea sp ltk; have lA := heap_get_size ea.
rewrite /loop_body /bind /lift !getitem1E ?sp ?ltnS //.
rewrite (setitem_atE _ ez ea) ?(leq_ltn_trans (leq0n k)) //.
set Z1 := (X in NdArray X).
set H1 := heap_set H _ _.
have ex1 : heap_get H1 xsys = Some (System xs).
  by rewrite heap_get_set // (heap_get_neq ex ea).
have ez1 : heap_get H1 zsys = Some (System zs).
  by rewrite heap_get_set // (heap_get_neq ez ea).
have ea1 : heap_get H1 (StateSpace.A zs) = Some (Array (NdArray Z1)).
  by rewrite heap_get_set // eqxx.
rewrite (load_systemE ex1) en.
case: ifP => lt1.
  rewrite (setitem_atE _ ez1 ea1) // heap_set_set.
  congr (_, heap_set _ _ (Array (NdArray _))); apply/matrixP => i j.
  rewrite !mxE addn1 ltnS -eqn_leq [(k == j :> nat)]eq_sym.
  case: (eqVneq (j : nat) k) => [->|]; rewrite ?andbF //= !andbT.
  case: (eqVneq (i : nat) k.+1) => [->|_]; first by rewrite /= ?eqxx.
  by rewrite orbF; case: ifP.
rewrite /ret; congr (_, heap_set _ _ (Array (NdArray _))).
apply/matrixP => i j.
rewrite !mxE addn1 ltnS -eqn_leq [(k == j :> nat)]eq_sym.
case: (eqVneq (j : nat) k) => [->|]; rewrite ?andbF //= !andbT.
case: (eqVneq (i : nat) 0%N) => [->|] //= i0; case: eqP => // ik.
by move: (ltn_ord i); rewrite ik lt1.
Qed.

Lemma loop_run H xsys zsys xs zs p n (Z : 'M[F]_n) k m :
  heap_get H xsys = Some (System xs) -> StateSpace.states xs = n ->
  heap_get H zsys = Some (System zs) ->
  heap_get H (StateSpace.A zs) = Some (Array (NdArray Z)) ->
  size p = n.+1 -> (k + m = n)%N ->
  for_ (iota k m) (loop_body xsys zsys p) H =
  (Ok tt, heap_set H (StateSpace.A zs) (Array (NdArray (fill p Z k m)))).
Proof.
elim: m k Z H => [|m IH] k Z H ex en ez ea sp ekm /=.
  rewrite /ret; congr (_, _); rewrite -[LHS](heap_set_same ea).
  congr (heap_set _ _ (Array (NdArray _))); apply/matrixP => i j.
  by rewrite mxE addn0; case: ltngtP.
have ltk : k < n by rewrite -ekm -addSnnS leq_addr.
have lA := heap_get_size ea.
rewrite /bind (loop_bodyE ex en ez ea sp ltk).
rewrite (IH _ (fill p Z k 1)) ?heap_get_set ?(heap_get_neq ex ea)
        ?(heap_get_neq ez ea) ?eqxx ?addSnnS // heap_set_set.
congr (_, heap_set _ _ (Array (NdArray _))); apply/matrixP => i j.
rewrite !mxE addSnnS addn1 ltnS -eqn_leq [k <= j]leq_eqVlt.
by case: (ltngtP k j) => //= ejk; rewrite ?andbF //= -ejk -addSnnS leq_addr.
Qed.

Lemma fill_all p n : fill p (const_mx 0) 0 n = companion_of p n.
Proof.
apply/matrixP => i j; rewrite !mxE leq0n add0n ltn_ord /=.
by case: eqP => //= _; case: eqP.
Qed.

Lemma companion_of_char_poly n (X : 'M[F]_n.+1) :
  companion_of (rev (char_poly X)) n.+1 = reach_A n (char_poly X).
Proof.
apply/matrixP => i j; have hj : j.+1 < n.+2 by rewrite ltnS.
by rewrite !mxE !nth_rev ?size_char_poly // subSS subn1.
Qed.

(** ** Running the helpers *)

Lemma issisoE h x s :
  heap_get h x = Some (System s) ->
  issiso x h =
  (Ok ((StateSpace.inputs s == 1%N) && (StateSpace.outputs s == 1%N)), h).
Proof. by move=> ex; rewrite /issiso /bind (load_systemE ex). Qed.

Lemma assign_attrE h z upd v s :
  heap_get h z = Some (System s) ->
  assign_attr z upd v h =
  (Ok tt, heap_set (rcons h (Array v)) z (System (upd s (size h)))).
Proof.
move=> ez; rewrite /assign_attr /bind /new.
by rewrite (@load_systemE _ _ s) // -cats1 (heap_get_cat_old _ ez).
Qed.

Lemma setitem_at_rows0 h z attr s n (X : 'M[F]_(0, n)) i j v :
  heap_get h z = Some (System s) ->
  heap_get h (attr s) = Some (Array (NdArray X)) ->
  setitem_at z attr i j v h = (Raise IndexError, h).
Proof.
move=> ez ea.
rewrite /setitem_at /bind (load_systemE ez) (load_arrayE ea) /lift.
by rewrite setitem_rows0.
Qed.

Lemma StateSpace_copyE h l x s a b c d :
  heap_get h x = Some (System s) ->
  heap_get h (StateSpace.A s) = Some (Array a) ->
  heap_get h (StateSpace.B s) = Some (Array b) ->
  heap_get h (StateSpace.C s) = Some (Array c) ->
  heap_get h (StateSpace.D s) = Some (Array d) ->
  StateSpace_copy x (h ++ l) =
  let k := (size h + size l)%N in
  if share_D then
    (Ok (k + 3)%N,
     h ++ l ++ [:: Array a; Array b; Array c;
                System (StateSpace.Build k (k + 1) (k + 2) (StateSpace.D s)
                          (StateSpace.states s) (StateSpace.inputs s)
                          (StateSpace.outputs s))])
  else
    (Ok (k + 4)%N,
     h ++ l ++ [:: Array a; Array b; Array c; Array d;
                System (StateSpace.Build k (k + 1) (k + 2) (k + 3)
                          (StateSpace.states s) (StateSpace.inputs s)
                          (StateSpace.outputs s))]).
Proof.
move=> ex ea eb ec ed.
rewrite /StateSpace_copy /bind (load_systemE (heap_get_cat_old l ex)).
rewrite (load_arrayE (heap_get_cat_old l ea)).
rewrite (load_arrayE (heap_get_cat_old l eb)).
rewrite (load_arrayE (heap_get_cat_old l ec)) /new /=.
case: share_D; rewrite /ret /=.
  by rewrite !size_rcons size_cat -!cats1 -!catA /= !addnS addn0.
rewrite -!cats1 -!catA (load_arrayE (heap_get_cat_old _ ed)).
by rewrite !catA !cats1 !size_rcons size_cat -!cats1 -!catA /= !addnS addn0.
Qed.

(** ** Running [reachable_form] on a well-formed SISO system *)

Section Run.

Variables (h : heap) (x : loc) (xs : StateSpace.t) (n' : nat).
Local Notation n := n'.+1.
Variables (MA : 'M[F]_n) (MB : 'cV[F]_n) (MC : 'rV[F]_n) (MD : 'M[F]_1).

Hypothesis ex : heap_get h x = Some (System xs).
Hypothesis en : StateSpace.states xs = n.
Hypothesis ei : StateSpace.inputs xs = 1%N.
Hypothesis eo : StateSpace.outputs xs = 1%N.
Hypothesis eA : heap_get h (StateSpace.A xs) = Some (Array (NdArray MA)).
Hypothesis eB : heap_get h (StateSpace.B xs) = Some (Array (NdArray MB)).
Hypothesis eC : heap_get h (StateSpace.C xs) = Some (Array (NdArray MC)).
Hypothesis eD : heap_get h (StateSpace.D xs) = Some (Array (NdArray MD)).

(** The objects the copy constructor allocates, and where it puts [D]. *)
Definition copied : heap :=
  [:: Array (NdArray MA); Array (NdArray MB); Array (NdArray MC)]
  ++ (if share_D then [::] else [:: Array (NdArray MD)]).

Definition zloc : loc := (size h + size copied)%N.

Definition zD : loc := if share_D then StateSpace.D xs else (size h + 3)%N.

Local Arguments for_ : simpl never.
Local Arguments zeros : simpl never.
Local Arguments poly : simpl never.
Local Arguments ctrb : simpl never.
Local Arguments inv : simpl never.
Local Arguments matmul : simpl never.

Let Az := reach_A n' (char_poly MA).
Let Bz := reach_B n'.
Let Wrx := krylov MA MB.
Let Tzx := krylov Az Bz *m invmx Wrx.

Lemma StateSpace_copy_run :
  StateSpace_copy x h =
  (Ok zloc,
   (h ++ copied) ++
     [:: System (StateSpace.Build (size h) (size h + 1) (size h + 2) zD
                   n 1 1)]).
Proof.
rewrite -[X in StateSpace_copy x X]cats0 (StateSpace_copyE _ ex eA eB eC eD).
rewrite /zloc /zD /copied /= en ei eo.
by case: share_D; rewrite /= ?addn0 -?catA.
Qed.

Local Arguments setitem : simpl never.
Local Arguments heap_set : simpl never.

Lemma reachable_form_run :
  reachable_form x h =
  if Wrx \in unitmx then
    (Ok (zloc, NdArray Tzx),
     (h ++ copied) ++
       [:: System (StateSpace.Build (zloc + 2) (zloc + 1) (zloc + 3) zD n 1 1);
           Array (NdArray Bz); Array (NdArray Az);
           Array (NdArray (MC *m invmx Tzx))])
  else
    (Raise (LinAlgError "Singular matrix"),
     (h ++ copied) ++
       [:: System (StateSpace.Build (zloc + 2) (zloc + 1) (size h + 2) zD n 1 1);
           Array (NdArray Bz); Array (NdArray Az)]).
Proof.
rewrite /reachable_form {1}/bind (issisoE ex) ei eo /=.
rewrite {1}/bind StateSpace_copy_run.
have -> : zloc = size (h ++ copied) by rewrite size_cat.
move: (h ++ copied) (heap_get_cat_old copied ex) (heap_get_cat_old copied eA)
  (heap_get_cat_old copied eB) (heap_get_cat_old copied eC) => g gx gA gB gC.
move: zD (size h) => d s0.
have hn := (size_cat, rcons_cat, heap_get_cat_new, heap_set_cat_new,
            heap_get_cat_new0, heap_set_cat_new0,
            heap_set_cons0, heap_set_consS,
            fun l => heap_get_cat_old l gx, fun l => heap_get_cat_old l gA,
            fun l => heap_get_cat_old l gB, fun l => heap_get_cat_old l gC).
rewrite /attr_array /assign_attr /setitem_at /new /store /bind /lift /ret.
rewrite /load_system /load_array /zeros /shape.
rewrite /StateSpace.set_A /StateSpace.set_B /StateSpace.set_C.
do 4 ![rewrite ?hn /=].
rewrite setitem_nat //.
do 4 ![rewrite ?hn /=].
rewrite polyE en.
rewrite (@loop_run _ _ _ xs
           (StateSpace.Build (size g + 2) (size g + 1) (s0 + 2) d n 1 1)
           _ n (const_mx 0)) ?hn ?size_rev ?size_char_poly //=.
rewrite fill_all companion_of_char_poly -/Az.
do 4 ![rewrite ?hn /=].
have -> : (\matrix_(k, l) (if (k == 0%N :> nat) && (l == 0%N :> nat) then 1
                           else (const_mx 0 : 'cV[F]_n) k l)) = Bz.
  by apply/matrixP => k l; rewrite !mxE ord1 andbT.
rewrite !ctrbE /= invE -/Wrx.
case: ifP => [reach|_] //.
rewrite matmulE -/Tzx invE (Tzx_unit reach) matmulE.
by do 4 ![rewrite ?hn /=].
Qed.


(** What the caller observes of the returned system. *)
Definition attr_value (g : heap) (z : loc) (attr : StateSpace.t -> loc)
    : option ndarray :=
  match heap_get g z with
  | Some (System s) =>
      match heap_get g (attr s) with
      | Some (Array a) => Some a
      | _ => None
      end
  | _ => None
  end.

Definition final_heap : heap :=
  (h ++ copied) ++
    [:: System (StateSpace.Build (zloc + 2) (zloc + 1) (zloc + 3) zD n 1 1);
        Array (NdArray Bz); Array (NdArray Az);
        Array (NdArray (MC *m invmx Tzx))].

Lemma reachable_form_ok :
  Wrx \in unitmx ->
  reachable_form x h = (Ok (zloc, NdArray Tzx), final_heap).
Proof. by move=> reach; rewrite reachable_form_run reach. Qed.

Lemma reachable_form_singular :
  Wrx \notin unitmx ->
  exists g,
    reachable_form x h = (Raise (LinAlgError "Singular matrix"), g).
Proof.
by move=> /negbTE reach; rewrite reachable_form_run reach; eexists.
Qed.

Lemma zloc_size : zloc = size (h ++ copied).
Proof. by rewrite size_cat. Qed.

Lemma final_A : attr_value final_heap zloc StateSpace.A = Some (NdArray Az).
Proof.
by rewrite /attr_value /final_heap !zloc_size heap_get_cat_new0 /=
           heap_get_cat_new.
Qed.

Lemma final_B : attr_value final_heap zloc StateSpace.B = Some (NdArray Bz).
Proof.
by rewrite /attr_value /final_heap !zloc_size heap_get_cat_new0 /=
           heap_get_cat_new.
Qed.

Lemma final_C :
  attr_value final_heap zloc StateSpace.C =
  Some (NdArray (MC *m invmx Tzx)).
Proof.
by rewrite /attr_value /final_heap !zloc_size heap_get_cat_new0 /=
           heap_get_cat_new.
Qed.

Lemma final_D : attr_value final_heap zloc StateSpace.D = Some (NdArray MD).
Proof.
rewrite /attr_value /final_heap !zloc_size heap_get_cat_new0 /= /zD /copied.
case: share_D => /=.
  by rewrite -catA (heap_get_cat_old _ eD).
by rewrite -catA heap_get_cat_new.
Qed.

End Run.

(** A system without states: [zsys.B[0, 0] = 1] is out of bounds. *)
Lemma reachable_form_no_state h x xs
    (MA : 'M[F]_0) (MB : 'cV[F]_0) (MC : 'rV[F]_0) (MD : 'M[F]_1) :
  heap_get h x = Some (System xs) ->
  StateSpace.inputs xs = 1%N -> StateSpace.outputs xs = 1%N ->
  heap_get h (StateSpace.A xs) = Some (Array (NdArray MA)) ->
  heap_get h (StateSpace.B xs) = Some (Array (NdArray MB)) ->
  heap_get h (StateSpace.C xs) = Some (Array (NdArray MC)) ->
  heap_get h (StateSpace.D xs) = Some (Array (NdArray MD)) ->
  exists g, reachable_form x h = (Raise IndexError, g).
Proof.
move=> ex ei eo eA eB eC eD.
rewrite /reachable_form {1}/bind (issisoE ex) ei eo /=.
rewrite {1}/bind -[X in StateSpace_copy x X]cats0.
rewrite (StateSpace_copyE _ ex eA eB eC eD) /= addn0.
have hn := (size_cat, rcons_cat, heap_get_cat_new, heap_set_cat_new,
            heap_set_cons0, heap_set_consS,
            fun l => heap_get_cat_old l ex, fun l => heap_get_cat_old l eB).
rewrite /attr_array /assign_attr /setitem_at /new /store /bind /lift /ret.
rewrite /load_system /load_array /zeros /shape /StateSpace.set_B.
by case: share_D => /=; do 4 ![rewrite ?hn /=]; rewrite setitem_rows0; eexists.
Qed.


(** A system with several inputs or outputs is rejected at once. *)
Lemma reachable_form_mimo h x s :
  heap_get h x = Some (System s) ->
  (StateSpace.inputs s == 1%N) && (StateSpace.outputs s == 1%N) = false ->
  reachable_form x h =
  (Raise (ControlNotImplemented
            "Canonical forms for MIMO systems not yet supported"), h).
Proof. by move=> ex ns; rewrite /reachable_form /bind (issisoE ex) ns. Qed.

(** ** Well-formed systems

    The invariant the [StateSpace] constructor establishes (section 3 of
    the specification): [A] is [n x n], [B] is [n x m], [C] is [p x n] and
    [D] is [p x m] for [n] states, [m] inputs and [p] outputs. *)

Definition has_shape (g : heap) (l : loc) (r c : nat) : bool :=
  match heap_get g l with
  | Some (Array a) => (nrows a == r) && (ncols a == c)
  | _ => false
  end.

Definition wf_system (g : heap) (x : loc) : bool :=
  match heap_get g x with
  | Some (System s) =>
      [&& has_shape g (StateSpace.A s) (StateSpace.states s)
            (StateSpace.states s),
          has_shape g (StateSpace.B s) (StateSpace.states s)
            (StateSpace.inputs s),
          has_shape g (StateSpace.C s) (StateSpace.outputs s)
            (StateSpace.states s)
        & has_shape g (StateSpace.D s) (StateSpace.outputs s)
            (StateSpace.inputs s)]
  | _ => false
  end.

Lemma has_shapeP g l r c :
  has_shape g l r c ->
  exists X : 'M[F]_(r, c), heap_get g l = Some (Array (NdArray X)).
Proof.
rewrite /has_shape; case: (heap_get g l) => [[[r2 c2 X]|]|] //=.
by case/andP => /eqP er /eqP ec; move: X; rewrite er ec => X; exists X.
Qed.

(** The outcome of [reachable_form] on a well-formed system. *)
Inductive outcome (h : heap) (x : loc) : result (loc * ndarray) * heap -> Prop :=
  | OutMimo s :
      heap_get h x = Some (System s) ->
      (StateSpace.inputs s == 1%N) && (StateSpace.outputs s == 1%N) = false ->
      outcome h x
        (Raise (ControlNotImplemented
                  "Canonical forms for MIMO systems not yet supported"), h)
  | OutNoState s g (MA : 'M[F]_0) (MB : 'cV[F]_0) :
      heap_get h x = Some (System s) -> StateSpace.states s = 0%N ->
      StateSpace.inputs s = 1%N -> StateSpace.outputs s = 1%N ->
      heap_get h (StateSpace.A s) = Some (Array (NdArray MA)) ->
      heap_get h (StateSpace.B s) = Some (Array (NdArray MB)) ->
      outcome h x (Raise IndexError, g)
  | OutSingular s n' g (MA : 'M[F]_n'.+1) (MB : 'cV[F]_n'.+1) :
      heap_get h x = Some (System s) -> StateSpace.states s = n'.+1 ->
      StateSpace.inputs s = 1%N -> StateSpace.outputs s = 1%N ->
      heap_get h (StateSpace.A s) = Some (Array (NdArray MA)) ->
      heap_get h (StateSpace.B s) = Some (Array (NdArray MB)) ->
      krylov MA MB \notin unitmx ->
      outcome h x (Raise (LinAlgError "Singular matrix"), g)
  | OutOk s n' z g (MA : 'M[F]_n'.+1) (MB : 'cV[F]_n'.+1)
        (MC : 'rV[F]_n'.+1) (MD : 'M[F]_1) :
      let Az := reach_A n' (char_poly MA) in
      let Bz := reach_B n' in
      let Tzx := krylov Az Bz *m invmx (krylov MA MB) in
      heap_get h x = Some (System s) -> StateSpace.states s = n'.+1 ->
      StateSpace.inputs s = 1%N -> StateSpace.outputs s = 1%N ->
      heap_get h (StateSpace.A s) = Some (Array (NdArray MA)) ->
      heap_get h (StateSpace.B s) = Some (Array (NdArray MB)) ->
      heap_get h (StateSpace.C s) = Some (Array (NdArray MC)) ->
      heap_get h (StateSpace.D s) = Some (Array (NdArray MD)) ->
      krylov MA MB \in unitmx ->
      attr_value g z StateSpace.A = Some (NdArray Az) ->
      attr_value g z StateSpace.B = Some (NdArray Bz) ->
      attr_value g z StateSpace.C = Some (NdArray (MC *m invmx Tzx)) ->
      attr_value g z StateSpace.D = Some (NdArray MD) ->
      outcome h x (Ok (z, NdArray Tzx), g).

Lemma reachable_form_outcome h x :
  wf_system h x -> outcome h x (reachable_form x h).
Proof.
rewrite /wf_system; case ex: (heap_get h x) => [[|s]|] //.
case: s ex => lA lB lC lD n i o ex /= /and4P[].
case/has_shapeP => MA eA; case/has_shapeP => MB eB.
case/has_shapeP => MC eC; case/has_shapeP => MD eD.
case siso: ((i == 1%N) && (o == 1%N)); last first.
  by rewrite (reachable_form_mimo ex) //; apply: OutMimo ex _.
case/andP: siso => /eqP ei /eqP eo.
move: MB MC MD eB eC eD ex; rewrite {i}ei {o}eo => MB MC MD eB eC eD ex.
case: n MA MB MC eA eB eC ex => [|n'] MA MB MC eA eB eC ex.
  have [g ->] := reachable_form_no_state ex erefl erefl eA eB eC eD.
  exact: (OutNoState _ ex _ _ _ eA eB).
rewrite (reachable_form_run ex erefl erefl erefl eA eB eC eD).
case: ifP => reach.
  apply: (OutOk ex _ _ _ eA eB eC eD) => //.
  - exact: final_A.
  - exact: final_B.
  - exact: final_C.
  - exact: final_D.
by apply: (OutSingular _ ex _ _ _ eA eB) => //; rewrite reach.
Qed.

Lemma getitem_nat m n (X : 'M[F]_(m, n)) i j (hi : i < m) (hj : j < n) :
  getitem (NdArray X) i j = Ok (X (Ordinal hi) (Ordinal hj)).
Proof. by rewrite /getitem /= !insubT. Qed.

Lemma attr_value_arr g z attr a :
  attr_value g z attr = Some a ->
  exists2 s, heap_get g z = Some (System s)
           & heap_get g (attr s) = Some (Array a).
Proof.
rewrite /attr_value; case ez: (heap_get g z) => [[|s]|] //.
by case ea: (heap_get g (attr s)) => [[a2|]|] // [<-]; exists s.
Qed.

Lemma attr_valueE g z attr s a :
  heap_get g z = Some (System s) -> heap_get g (attr s) = Some (Array a) ->
  attr_value g z attr = Some a.
Proof. by rewrite /attr_value => -> ->. Qed.

(** What a successful run tells about its input and its result. *)
Inductive ok_run (h : heap) (x z : loc) (T : ndarray) (g : heap) : Prop :=
  OkRun s n' (MA : 'M[F]_n'.+1) (MB : 'cV[F]_n'.+1)
        (MC : 'rV[F]_n'.+1) (MD : 'M[F]_1) of
      heap_get h x = Some (System s) & StateSpace.states s = n'.+1
    & StateSpace.inputs s = 1%N & StateSpace.outputs s = 1%N
    & heap_get h (StateSpace.A s) = Some (Array (NdArray MA))
    & heap_get h (StateSpace.B s) = Some (Array (NdArray MB))
    & heap_get h (StateSpace.C s) = Some (Array (NdArray MC))
    & heap_get h (StateSpace.D s) = Some (Array (NdArray MD))
    & krylov MA MB \in unitmx
    & T = NdArray (krylov (reach_A n' (char_poly MA)) (reach_B n')
                   *m invmx (krylov MA MB))
    & attr_value g z StateSpace.A = Some (NdArray (reach_A n' (char_poly MA)))
    & attr_value g z StateSpace.B = Some (NdArray (reach_B n'))
    & attr_value g z StateSpace.C =
        Some (NdArray (MC *m invmx (krylov (reach_A n' (char_poly MA))
                                      (reach_B n')
                                    *m invmx (krylov MA MB))))
    & attr_value g z StateSpace.D = Some (NdArray MD).

Lemma success_inv h x z T g :
  wf_system h x -> reachable_form x h = (Ok (z, T), g) -> ok_run h x z T g.
Proof.
move=> wf run; move: (reachable_form_outcome wf); rewrite run => out.
by inversion out; subst; apply: OkRun; eauto.
Qed.

(** ** The properties of the specification *)

(** C7 (D preservation): on every input on which [reachable_form]
    succeeds, the [D] of the returned system is exactly the [D] of the
    input system. *)
Theorem D_preserved h x z T h' :
  wf_system h x -> reachable_form x h = (Ok (z, T), h') ->
  exists2 d, attr_value h x StateSpace.D = Some d
           & attr_value h' z StateSpace.D = Some d.
Proof.
move=> wf run.
case: (success_inv wf run) => s n' MA MB MC MD ex _ _ _ _ _ _ eD _ _ _ _ _ oD.
by exists (NdArray MD) => //; apply: attr_valueE ex eD.
Qed.



(** ** The store before the call is a prefix of the store after it *)

Section Frame.

Variables (g : heap) (z : loc).

(** The invariant of the part of [reachable_form] that follows the copy:
    the original store [g] is untouched, and the new system [z] and the
    arrays bound to its [A] and [B] lie beyond it. *)
Definition fresh_inv (H : heap) : Prop :=
  [/\ exists l, H = g ++ l, size g <= z
    & forall s, heap_get H z = Some (System s) ->
      size g <= StateSpace.A s /\ size g <= StateSpace.B s].

Definition preserves T (m : Py T) : Prop :=
  forall H, fresh_inv H -> fresh_inv (m H).2.

Lemma preserves_bind T U (m : Py T) (f : T -> Py U) :
  preserves m -> (forall v, preserves (f v)) -> preserves (bind m f).
Proof.
move=> pm pf H iH; rewrite /bind; move: (pm H iH).
by case: (m H) => [[v|e] H1] //=; apply: pf.
Qed.

Lemma preserves_ret T (v : T) : preserves (ret v).
Proof. by []. Qed.

Lemma preserves_lift T (r : result T) : preserves (lift r).
Proof. by []. Qed.

Lemma preserves_load_system x : preserves (load_system x).
Proof. by move=> H; rewrite /load_system; case: heap_get => [[?|?]|]. Qed.

Lemma preserves_load_array l : preserves (load_array l).
Proof. by move=> H; rewrite /load_array; case: heap_get => [[?|?]|]. Qed.

Lemma preserves_attr_array x attr : preserves (attr_array x attr).
Proof.
apply: preserves_bind => [|s]; first exact: preserves_load_system.
exact: preserves_load_array.
Qed.

Lemma heap_get_rcons (H : heap) o l s :
  heap_get (rcons H (Array o)) l = Some (System s) ->
  heap_get H l = Some (System s).
Proof.
rewrite /heap_get map_rcons nth_rcons size_map.
by case: ltngtP.
Qed.

Lemma heap_set_beyond l k o :
  size g <= k -> exists l2, heap_set (g ++ l) k o = g ++ l2.
Proof.
by move=> /subnKC <-; rewrite heap_set_cat_new; eexists.
Qed.

Lemma preserves_assign_attr upd v :
  (forall s l, size g <= StateSpace.A s -> size g <= StateSpace.B s ->
     size g <= l ->
     size g <= StateSpace.A (upd s l) /\ size g <= StateSpace.B (upd s l)) ->
  preserves (assign_attr z upd v).
Proof.
move=> hupd H [[l eH] lez fr]; rewrite /assign_attr /bind /new /load_system.
case ez: (heap_get _ z) => [[a|s]|] /=.
- split=> //; first by exists (rcons l (Array v)); rewrite eH rcons_cat.
  by move=> s; rewrite ez.
- have ez0 := heap_get_rcons ez; have [frA frB] := fr _ ez0.
  have lz : z < size (rcons H (Array v)) := heap_get_size ez.
  split=> //.
    by rewrite eH rcons_cat; apply: heap_set_beyond.
  move=> s2; rewrite heap_get_set // eqxx => -[<-].
  by apply: hupd => //; rewrite eH size_cat leq_addr.
split=> //; first by exists (rcons l (Array v)); rewrite eH rcons_cat.
by move=> s; rewrite ez.
Qed.

Lemma preserves_setitem_at attr i j v :
  (forall s, size g <= StateSpace.A s -> size g <= StateSpace.B s ->
     size g <= attr s) ->
  preserves (setitem_at z attr i j v).
Proof.
move=> hattr H iH; rewrite /setitem_at /bind /load_system /load_array /lift.
case ez: (heap_get H z) => [[?|s]|] //=.
case ea: (heap_get H (attr s)) => [[a|?]|] //=.
case: (setitem a i j v) => [a2|e] //=.
case: iH => [[l eH] lez fr]; have [frA frB] := fr _ ez.
have la := heap_get_size ea.
split=> //; first by rewrite eH; apply: heap_set_beyond; apply: hattr.
move=> s2; rewrite heap_get_set // (heap_get_neq ez ea) ez => -[<-].
exact: fr.
Qed.

Lemma preserves_for l body :
  (forall i, preserves (body i)) -> preserves (for_ l body).
Proof.
move=> pb; elim: l => [|i l IH] //=.
by apply: preserves_bind.
Qed.

Lemma preserves_loop_body x p i : preserves (loop_body x z p i).
Proof.
rewrite /loop_body.
apply: preserves_bind => [|p1]; first exact: preserves_lift.
apply: preserves_bind => [|p0]; first exact: preserves_lift.
apply: preserves_bind => [|_]; first exact: preserves_setitem_at.
apply: preserves_bind => [|xs]; first exact: preserves_load_system.
by case: ifP => _ //; apply: preserves_setitem_at.
Qed.

End Frame.

Lemma copy_frame g x :
  (exists l, (StateSpace_copy x g).2 = g ++ l) /\
  (forall z, (StateSpace_copy x g).1 = Ok z ->
     fresh_inv g z (StateSpace_copy x g).2).
Proof.
rewrite /StateSpace_copy /bind /load_system /load_array /new /ret.
case ex: (heap_get g x) => [[?|s]|] /=; try by split=> //; exists [::]; rewrite cats0.
case: (heap_get g (StateSpace.A s)) => [[a|?]|] /=;
  try by split=> //; exists [::]; rewrite cats0.
case: (heap_get g (StateSpace.B s)) => [[b|?]|] /=;
  try by split=> //; exists [::]; rewrite cats0.
case: (heap_get g (StateSpace.C s)) => [[c|?]|] /=;
  try by split=> //; exists [::]; rewrite cats0.
case: share_D => /=.
  rewrite -!cats1 -!catA /= !size_cat /=; split; first by eexists.
  move=> z [<-]; split; [by eexists | exact: leq_addr |].
  by move=> s2; rewrite heap_get_cat_new /= => -[<-] /=; rewrite leqnn leq_addr.
case: (heap_get _ (StateSpace.D s)) => [[d|?]|] /=;
  try by rewrite -!cats1 -!catA /=; split=> //; eexists.
rewrite -!cats1 -!catA /= !size_cat /=; split; first by eexists.
move=> z [<-]; split; [by eexists | exact: leq_addr |].
by move=> s2; rewrite heap_get_cat_new /= => -[<-] /=; rewrite leqnn leq_addr.
Qed.

Lemma fresh_inv_ext g z H : fresh_inv g z H -> exists l, H = g ++ l.
Proof. by case. Qed.

Lemma reachable_form_frame x h :
  exists l, (reachable_form x h).2 = h ++ l.
Proof.
have triv : exists l, h = h ++ l by exists [::]; rewrite cats0.
rewrite /reachable_form {1}/bind /issiso {1}/bind {1}/load_system.
case: (heap_get h x) => [[?|s]|] //=.
case: ifP => _ //=; rewrite {1}/bind.
case: (copy_frame h x).
case: (StateSpace_copy x h) => [[z|e] H1] //= _ /(_ z erefl) iH.
apply: (@fresh_inv_ext h z); move: H1 iH; rewrite -/(preserves h z _).
by do ![first
  [ exact: preserves_attr_array | exact: preserves_lift
  | exact: preserves_load_system | exact: preserves_ret
  | by apply: preserves_assign_attr => s0 l0 /=
  | by apply: preserves_setitem_at
  | by apply: preserves_for => i; exact: preserves_loop_body
  | apply: preserves_bind => [|?] ]].
Qed.

(** C8 (no mutation of the input): whether [reachable_form] returns or
    raises, the store it leaves extends the store it was given, so every
    object that existed before the call, [xsys] and the arrays bound to
    [xsys.A], [xsys.B], [xsys.C] and [xsys.D] among them, holds the value
    it held before; all writes go to objects allocated by the call. *)
Theorem input_not_mutated x h :
  (exists l, (reachable_form x h).2 = h ++ l) /\
  (forall k o, heap_get h k = Some o ->
     heap_get (reachable_form x h).2 k = Some o) /\
  (forall attr a, attr_value h x attr = Some a ->
     attr_value (reachable_form x h).2 x attr = Some a).
Proof.
have [l el] := reachable_form_frame x h; split; first by exists l.
have old k o : heap_get h k = Some o ->
    heap_get (reachable_form x h).2 k = Some o.
  by rewrite el; apply: heap_get_cat_old.
split=> // attr a /attr_value_arr[s ex ea].
by apply: attr_valueE (old _ _ ex) (old _ _ ea).
Qed.




(** C4 (B normalization): on every input with [n] states on which
    [reachable_form] succeeds, the [B] of the returned system is the
    [n x 1] column with 1 in its first row and 0 in every other row. *)
Theorem B_normalized h x z T h' :
  wf_system h x -> reachable_form x h = (Ok (z, T), h') ->
  exists s zB,
    [/\ heap_get h x = Some (System s),
        attr_value h' z StateSpace.B = Some zB,
        shape zB = (StateSpace.states s, 1%N)
      & forall i, i < StateSpace.states s ->
          getitem zB i 0 = Ok (if i == 0%N then 1 else 0)].
Proof.
move=> wf run.
case: (success_inv wf run) => s n' MA MB MC MD ex en _ _ _ _ _ _ _ _ _ oB _ _.
exists s, (NdArray (reach_B n')); split=> //; rewrite en // => i lti.
by rewrite (getitem_nat _ lti (ltn0Sn 0)) mxE.
Qed.

Lemma poly_inv a p :
  poly a = Ok p ->
  exists n (X : 'M[F]_n.+1), a = NdArray X /\ p = rev (char_poly X).
Proof.
case: a => r c X; rewrite /poly /=; case: eqP => // e.
case: _ / e X => X; rewrite castmx_id.
by case: r X => [|n] X //= [<-]; exists n, X.
Qed.

Lemma nth_rev_char_poly n (X : 'M[F]_n) k :
  k <= n -> nth 0 (rev (char_poly X)) k = (char_poly X)`_(n - k).
Proof. by move=> le; rewrite nth_rev size_char_poly // subSS. Qed.

Lemma char_poly_lead n (X : 'M[F]_n) : (char_poly X)`_n = 1.
Proof.
by have /monicP := char_poly_monic X; rewrite lead_coefE size_char_poly.
Qed.

Lemma NdArray_inj m n (X Y : 'M[F]_(m, n)) : NdArray X = NdArray Y -> X = Y.
Proof.
move=> e; apply/matrixP => i j.
have := congr1 (fun a => getitem a i j) e.
by rewrite !getitemE => -[].
Qed.

Lemma NdArray_shape m n m2 n2 (X : 'M[F]_(m, n)) (Y : 'M[F]_(m2, n2)) :
  NdArray X = NdArray Y -> m = m2 /\ n = n2.
Proof. by move=> e; split; [exact: (congr1 nrows e)|exact: (congr1 ncols e)]. Qed.

(** C1 (companion structure): on every input with [n] states on which
    [reachable_form] succeeds, the [A] of the returned system has ones on
    the sub-diagonal, zeros outside the first row and the sub-diagonal, and
    first row [- p_(i+1) / p_0], where [p_0 .. p_n] are the coefficients of
    the characteristic polynomial of [xsys.A], highest degree first. *)
Theorem companion_structure h x z T h' :
  wf_system h x -> reachable_form x h = (Ok (z, T), h') ->
  exists n (MA : 'M[F]_n) (zA : ndarray),
    let p := rev (char_poly MA) in
    [/\ exists2 s, heap_get h x = Some (System s) & StateSpace.states s = n,
        attr_value h x StateSpace.A = Some (NdArray MA),
        attr_value h' z StateSpace.A = Some zA
      & shape zA = (n, n)] /\
    [/\ forall i, i.+1 < n -> getitem zA i.+1 i = Ok 1,
        forall i j, i < n -> j < n -> i != 0%N -> i != j.+1 ->
          getitem zA i j = Ok 0
      & forall i, i < n -> getitem zA 0 i = Ok (- nth 0 p i.+1 / nth 0 p 0)].
Proof.
move=> wf run.
case: (success_inv wf run) => s n' MA MB MC MD ex en _ _ eA _ _ _ _ _ oA _ _ _.
move: oA; rewrite -companion_of_char_poly => oA.
exists n'.+1, MA, (NdArray (companion_of (rev (char_poly MA)) n'.+1)) => /=.
split; first by split=> //; [exists s | exact: attr_valueE ex eA].
split.
- by move=> i lti; rewrite (getitem_nat _ lti (ltnW lti)) mxE /= eqxx.
- move=> i j lti ltj i0 ij; rewrite (getitem_nat _ lti ltj) mxE /=.
  by rewrite (negbTE i0) (negbTE ij).
by move=> i lti; rewrite (getitem_nat _ (ltn0Sn n') lti) mxE.
Qed.

(** A well-formed SISO system, taken apart. *)
Lemma wf_siso_inv h x :
  wf_system h x -> issiso x h = (Ok true, h) ->
  exists s (MA : 'M[F]_(StateSpace.states s))
         (MB : 'cV[F]_(StateSpace.states s))
         (MC : 'rV[F]_(StateSpace.states s)) (MD : 'M[F]_1),
    [/\ heap_get h x = Some (System s),
        StateSpace.inputs s = 1%N /\ StateSpace.outputs s = 1%N,
        heap_get h (StateSpace.A s) = Some (Array (NdArray MA)),
        heap_get h (StateSpace.B s) = Some (Array (NdArray MB))
      & heap_get h (StateSpace.C s) = Some (Array (NdArray MC)) /\
        heap_get h (StateSpace.D s) = Some (Array (NdArray MD))].
Proof.
rewrite /wf_system; case ex: (heap_get h x) => [[|s]|] //.
rewrite (issisoE ex) => wf [/andP[/eqP ei /eqP eo]].
move: wf; rewrite ei eo => /and4P[].
case/has_shapeP => MA eA; case/has_shapeP => MB eB.
case/has_shapeP => MC eC; case/has_shapeP => MD eD.
by exists s, MA, MB, MC, MD.
Qed.

(** [poly] succeeds on the [A] of every well-formed system with at least
    one state. *)
Lemma poly_defined h x s xA :
  wf_system h x -> heap_get h x = Some (System s) ->
  0 < StateSpace.states s -> attr_value h x StateSpace.A = Some xA ->
  exists Apoly, poly xA = Ok Apoly.
Proof.
rewrite /wf_system => wf ex; move: wf; rewrite ex.
case/and4P => /has_shapeP[MA eA] _ _ _ n0.
rewrite (attr_valueE ex eA) => -[<-].
case: (StateSpace.states s) MA n0 {eA} => [|n] MA // _.
by rewrite polyE; eexists.
Qed.

(** Once the loop has run, the new system carries the companion matrix,
    whether the inversion that follows succeeds or not. *)
Lemma loop_reached h x xs n' (MA : 'M[F]_n'.+1) (MB : 'cV[F]_n'.+1)
    (MC : 'rV[F]_n'.+1) (MD : 'M[F]_1) r g :
  heap_get h x = Some (System xs) -> StateSpace.states xs = n'.+1 ->
  StateSpace.inputs xs = 1%N -> StateSpace.outputs xs = 1%N ->
  heap_get h (StateSpace.A xs) = Some (Array (NdArray MA)) ->
  heap_get h (StateSpace.B xs) = Some (Array (NdArray MB)) ->
  heap_get h (StateSpace.C xs) = Some (Array (NdArray MC)) ->
  heap_get h (StateSpace.D xs) = Some (Array (NdArray MD)) ->
  reachable_form x h = (r, g) ->
  [/\ size h <= zloc h MA MB MC MD,
      attr_value g (zloc h MA MB MC MD) StateSpace.A =
        Some (NdArray (reach_A n' (char_poly MA)))
    & forall z T, r = Ok (z, T) -> z = zloc h MA MB MC MD].
Proof.
move=> ex en ei eo eA eB eC eD.
rewrite (reachable_form_run ex en ei eo eA eB eC eD).
case: ifP => _ [<- <-]; split; rewrite ?leq_addr //; try by move=> z T [].
- by rewrite /attr_value !zloc_size heap_get_cat_new0 /= heap_get_cat_new.
- by rewrite /attr_value !zloc_size heap_get_cat_new0 /= heap_get_cat_new.
Qed.

(** C10 (monic divisor): for every well-formed SISO system, with [Apoly]
    the coefficients that [poly] returns on [xsys.A] (it returns them
    whenever there is a state, [poly_defined]), the divisor [Apoly[0]] is
    1, hence not zero, and every run of [reachable_form], whether it
    returns or the later [inv] raises, leaves a new system whose [A] has
    the first row [- Apoly[i+1]] for [i] in [0 .. n-1]; a returned system
    is that new system. *)
Theorem Apoly_monic h x xA Apoly r h' :
  wf_system h x -> issiso x h = (Ok true, h) ->
  attr_value h x StateSpace.A = Some xA -> poly xA = Ok Apoly ->
  reachable_form x h = (r, h') ->
  [/\ nth 0 Apoly 0 = 1, nth 0 Apoly 0 != 0
    & exists s z zA,
        [/\ heap_get h x = Some (System s),
            size h <= z,
            attr_value h' z StateSpace.A = Some zA,
            forall i, i < StateSpace.states s ->
              getitem zA 0 i = Ok (- nth 0 Apoly i.+1)
          & forall z' T, r = Ok (z', T) -> z' = z]].
Proof.
move=> wf siso oxA /poly_inv[n [X [exA ->]]] run.
have p0 : nth 0 (rev (char_poly X)) 0 = 1.
  by rewrite nth_rev_char_poly // subn0; exact: char_poly_lead.
split=> //; first by rewrite p0 oner_neq0.
have [s [MA [MB [MC [MD [ex [ei eo] eA eB [eC eD]]]]]]] := wf_siso_inv wf siso.
have eMA : NdArray MA = NdArray X.
  by move: oxA; rewrite (attr_valueE ex eA) exA => /Some_inj.
have [/= en _] := NdArray_shape eMA.
move: MA MB MC eA eB eC eMA; rewrite en => MA MB MC eA eB eC /NdArray_inj eMA.
subst X.
have [fresh oA pin] := loop_reached ex en ei eo eA eB eC eD run.
exists s, (zloc h MA MB MC MD), (NdArray (reach_A n (char_poly MA))).
split=> //; rewrite en => i lti; rewrite (getitem_nat _ (ltn0Sn n) lti).
by rewrite -companion_of_char_poly mxE /= p0 divr1.
Qed.

(** C2 (coordinate change): for every well-formed SISO system whose
    reachability matrix [ctrb(xsys.A, xsys.B)] is nonsingular,
    [reachable_form] returns a pair [(zsys, T)] with
    [T * xsys.A * inv(T) == zsys.A] and [T * xsys.B == zsys.B]. *)
Theorem coordinate_change h x xA xB Wrx iWrx :
  wf_system h x -> issiso x h = (Ok true, h) ->
  attr_value h x StateSpace.A = Some xA ->
  attr_value h x StateSpace.B = Some xB ->
  ctrb xA xB = Ok Wrx -> inv Wrx = Ok iWrx ->
  exists z T h' zA zB iT,
    [/\ reachable_form x h = (Ok (z, T), h'),
        attr_value h' z StateSpace.A = Some zA,
        attr_value h' z StateSpace.B = Some zB,
        inv T = Ok iT
      & rbind (matmul T xA) (fun TA => matmul TA iT) = Ok zA /\
        matmul T xB = Ok zB].
Proof.
move=> wf siso oxA oxB ectrb einv; have out := reachable_form_outcome wf.
inversion out as
  [s ex ns e | s g MA MB ex en ei eo eA eB e
  | s n' g MA MB ex en ei eo eA eB ns e
  | s n' z g MA MB MC MD Az Bz Tzx ex en ei eo eA eB eC eD reach oA oB oC oD e].
- by move: siso; rewrite (issisoE ex) ns.
- move: ectrb einv; move: oxA oxB.
  rewrite (attr_valueE ex eA) (attr_valueE ex eB) => -[<-] [<-].
  by rewrite /ctrb /= => -[<-]; rewrite /inv /=; case: eqP.
- move: ectrb einv; move: oxA oxB.
  rewrite (attr_valueE ex eA) (attr_valueE ex eB) => -[<-] [<-].
  by rewrite ctrbE => -[<-]; rewrite invE (negbTE ns).
move: oxA oxB; rewrite (attr_valueE ex eA) (attr_valueE ex eB) => -[<-] [<-].
exists z, (NdArray Tzx), g, (NdArray Az), (NdArray Bz), (NdArray (invmx Tzx)).
split=> //; first by rewrite invE (Tzx_unit reach).
by rewrite !matmulE /= matmulE (Tzx_A reach) (Tzx_B reach).
Qed.

(** C9 (uncontrollable system): for every well-formed SISO system with at
    least one state whose [B] is the zero vector, [reachable_form] raises
    the singular-matrix error of [inv] and returns no pair. *)
Theorem zero_B_singular h x n :
  wf_system h x -> issiso x h = (Ok true, h) ->
  attr_value h x StateSpace.B = Some (zeros (n, 1%N)) -> 0 < n ->
  exists g, reachable_form x h = (Raise (LinAlgError "Singular matrix"), g).
Proof.
move=> wf siso oxB n0; have out := reachable_form_outcome wf.
inversion out as
  [s ex ns e | s g MA MB ex en ei eo eA eB e
  | s n' g MA MB ex en ei eo eA eB ns e
  | s n' z g MA MB MC MD Az Bz Tzx ex en ei eo eA eB eC eD reach oA oB oC oD e].
- by move: siso; rewrite (issisoE ex) ns.
- move: oxB; rewrite (attr_valueE ex eB) => /Some_inj /NdArray_shape[/= en0 _].
  by move: n0; rewrite -en0.
- by exists g.
move: oxB; rewrite (attr_valueE ex eB) => /Some_inj eMB.
have [/= en0 _] := NdArray_shape eMB; subst n.
have {eMB} eMB : MB = const_mx 0 by apply: NdArray_inj.
have c0 : (const_mx 0 : 'cV[F]_n'.+1) = 0.
  by apply/matrixP => i j; rewrite !mxE.
have k0 : krylov MA MB = 0.
  by apply/matrixP => i j; rewrite mxE eMB c0 mulmx0 !mxE.
by move: reach; rewrite k0 unitmxE det0 unitr0.
Qed.

(** C5 (MIMO rejection): on a system with more than one input or more than
    one output [reachable_form] raises the unsupported-feature error and
    leaves the store as it found it: nothing is allocated, nothing is
    computed, no pair is returned. *)
Theorem mimo_rejected h x s :
  heap_get h x = Some (System s) ->
  (1 < StateSpace.inputs s) || (1 < StateSpace.outputs s) ->
  reachable_form x h =
  (Raise (ControlNotImplemented
            "Canonical forms for MIMO systems not yet supported"), h).
Proof.
move=> ex mimo; apply: reachable_form_mimo ex _.
by case: (StateSpace.inputs s) (StateSpace.outputs s) mimo
  => [|[|i]] [|[|o]].
Qed.

(** A string occurs inside another one. *)
Definition contains (sub s : string) : Prop :=
  exists pre post, s = String.append pre (String.append sub post).

(** C6 (dispatch): for every form name other than ["reachable"],
    [canonical_form] raises the unsupported-feature error with a message
    that contains the requested name, and leaves the store alone; for
    ["reachable"] it is [reachable_form]. *)
Theorem canonical_form_dispatch x form h :
  (form <> "reachable"%string ->
   exists msg,
     canonical_form x form h = (Raise (ControlNotImplemented msg), h) /\
     contains form msg) /\
  canonical_form x "reachable" h = reachable_form x h.
Proof.
split=> // ne; rewrite /canonical_form.
case: (String.eqb_spec form "reachable") => // _.
eexists; split; first by [].
by exists "Canonical form '"%string, "' not yet implemented"%string.
Qed.

(** ** The scenario of the specification *)

Definition mx_of_rows m n (rows : seq (seq F)) : 'M[F]_(m, n) :=
  \matrix_(i, j) nth 0 (nth [::] rows i) j.

Definition scenario_A : 'M[F]_2 :=
  mx_of_rows 2 2 [:: [:: 0; 1]; [:: - 2%:R; - 3%:R]].
Definition scenario_B : 'cV[F]_2 := mx_of_rows 2 1 [:: [:: 0]; [:: 1]].
Definition scenario_C : 'rV[F]_2 := mx_of_rows 1 2 [:: [:: 1; 0]].
Definition scenario_D : 'M[F]_1 := mx_of_rows 1 1 [:: [:: 0]].

Definition scenario_heap : heap :=
  [:: Array (NdArray scenario_A); Array (NdArray scenario_B);
      Array (NdArray scenario_C); Array (NdArray scenario_D);
      System (StateSpace.Build 0 1 2 3 2 1 1)].

Definition scenario_sys : loc := 4.

Lemma det2 (X : 'M[F]_2) :
  \det X = X ord0 ord0 * X ord_max ord_max - X ord0 ord_max * X ord_max ord0.
Proof.
rewrite (expand_det_row _ ord0) !big_ord_recl big_ord0 addr0 /cofactor.
rewrite !det_mx11 !mxE /= !addn0 expr0 expr1 mul1r mulN1r mulrN.
by congr (_ * X _ _ - X _ _ * X _ _); apply: val_inj.
Qed.

Lemma scenario_entry m n rows (i : 'I_m) (j : 'I_n) :
  mx_of_rows m n rows i j = nth 0 (nth [::] rows i) j.
Proof. by rewrite mxE. Qed.

Lemma scenario_char_poly :
  [/\ (char_poly scenario_A)`_0 = 2%:R, (char_poly scenario_A)`_1 = 3%:R
    & (char_poly scenario_A)`_2 = 1].
Proof.
split; last exact: char_poly_lead.
  rewrite char_poly_det det2 !scenario_entry /= expr2 mulN1r opprK mul1r.
  by rewrite mul0r sub0r mul1r opprK.
rewrite (@char_poly_trace _ 2 scenario_A) // /mxtrace !big_ord_recl big_ord0.
by rewrite !scenario_entry /= add0r addr0 opprK.
Qed.



Lemma scenario_reach_A :
  reach_A 1 (char_poly scenario_A) =
  mx_of_rows 2 2 [:: [:: - 3%:R; - 2%:R]; [:: 1; 0]].
Proof.
have [c0 c1 c2] := scenario_char_poly.
apply/matrixP => i j; rewrite !mxE.
case: i => [[|[|i]] hi] //; case: j => [[|[|j]] hj] //=;
  by rewrite ?subnn ?subn1 /= ?c0 ?c1 ?c2 ?divr1.
Qed.

Lemma scenario_reach_B : reach_B 1 = mx_of_rows 2 1 [:: [:: 1]; [:: 0]].
Proof.
apply/matrixP => i j; rewrite !mxE.
by case: i => [[|[|i]] hi] //; case: j => [[|j] hj].
Qed.

Lemma scenario_krylov :
  krylov scenario_A scenario_B = mx_of_rows 2 2 [:: [:: 0; 1]; [:: 1; - 3%:R]].
Proof.
apply/matrixP => i j; rewrite mxE.
case: j => [[|[|j]] hj] //; rewrite ?expr0 ?mul1mx ?expr1 /=.
  by rewrite !scenario_entry /=; case: i => [[|[|i]] hi].
rewrite mxE !big_ord_recl big_ord0 !scenario_entry /= mulr0 add0r addr0 mulr1.
by case: i => [[|[|i]] hi].
Qed.

Lemma scenario_reachable : krylov scenario_A scenario_B \in unitmx.
Proof.
rewrite scenario_krylov unitmxE det2 !scenario_entry /=.
by rewrite mul0r sub0r mul1r unitrN unitr1.
Qed.

Definition scenario_xs : StateSpace.t := StateSpace.Build 0 1 2 3 2 1 1.

Definition scenario_z : loc :=
  zloc scenario_heap scenario_A scenario_B scenario_C scenario_D.

Definition scenario_T : 'M[F]_2 :=
  krylov (reach_A 1 (char_poly scenario_A)) (reach_B 1)
  *m invmx (krylov scenario_A scenario_B).

Definition scenario_final : heap :=
  final_heap scenario_heap scenario_xs
    scenario_A scenario_B scenario_C scenario_D.

Lemma scenario_wf : wf_system scenario_heap scenario_sys.
Proof. by rewrite /wf_system /has_shape /= !eqxx. Qed.

Lemma scenario_siso :
  issiso scenario_sys scenario_heap = (Ok true, scenario_heap).
Proof. by []. Qed.

Lemma scenario_run :
  reachable_form scenario_sys scenario_heap =
  (Ok (scenario_z, NdArray scenario_T), scenario_final).
Proof.
by apply: (@reachable_form_ok scenario_heap scenario_sys scenario_xs) => //;
   exact: scenario_reachable.
Qed.

(** C3 (concrete scenario): on the 2-state system with
    [A = [[0,1],[-2,-3]]], [B = [[0],[1]]], [C = [[1,0]]], [D = [[0]]],
    [reachable_form] returns [zsys] with [A = [[-3,-2],[1,0]]],
    [B = [[1],[0]]], [D = [[0]]], and a [2 x 2] invertible [T]. *)
Theorem concrete_scenario :
  exists z T h',
    [/\ reachable_form scenario_sys scenario_heap = (Ok (z, T), h'),
        attr_value h' z StateSpace.A =
          Some (NdArray (mx_of_rows 2 2 [:: [:: - 3%:R; - 2%:R]; [:: 1; 0]])),
        attr_value h' z StateSpace.B =
          Some (NdArray (mx_of_rows 2 1 [:: [:: 1]; [:: 0]])),
        attr_value h' z StateSpace.D =
          Some (NdArray (mx_of_rows 1 1 [:: [:: 0]]))
      & shape T = (2%N, 2%N) /\ exists iT, inv T = Ok iT].
Proof.
exists scenario_z, (NdArray scenario_T), scenario_final; split.
- exact: scenario_run.
- by rewrite -scenario_reach_A; apply: final_A.
- by rewrite -scenario_reach_B; apply: final_B.
- exact: (@final_D scenario_heap scenario_xs).
split=> //; exists (NdArray (invmx scenario_T)).
by rewrite invE (Tzx_unit scenario_reachable).
Qed.

(** A SISO system without states, whose [B] is an empty column. *)
Definition no_state_heap : heap :=
  [:: Array (zeros (0%N, 0%N)); Array (zeros (0%N, 1%N));
      Array (zeros (1%N, 0%N)); Array (zeros (1%N, 1%N));
      System (StateSpace.Build 0 1 2 3 0 1 1)].

Lemma no_state_run :
  exists g, reachable_form 4 no_state_heap = (Raise IndexError, g).
Proof.
exact: (@reachable_form_no_state no_state_heap 4
          (StateSpace.Build 0 1 2 3 0 1 1)
          (const_mx 0) (const_mx 0) (const_mx 0) (const_mx 0)).
Qed.

(** A 2-state SISO system whose [B] is the zero vector. *)
Definition zero_B_heap : heap :=
  [:: Array (NdArray scenario_A); Array (zeros (2%N, 1%N));
      Array (NdArray scenario_C); Array (NdArray scenario_D);
      System (StateSpace.Build 0 1 2 3 2 1 1)].

Lemma zero_B_wf : wf_system zero_B_heap 4.
Proof. by rewrite /wf_system /has_shape /= !eqxx. Qed.

(** A system with two inputs. *)
Definition mimo_heap : heap :=
  [:: Array (zeros (1%N, 1%N)); Array (zeros (1%N, 2%N));
      Array (zeros (1%N, 1%N)); Array (zeros (1%N, 2%N));
      System (StateSpace.Build 0 1 2 3 1 2 1)].

(** * Further properties of [reachable_form] and [canonical_form] *)

(** A successful run on a well-formed system, with its result spelled
    out. *)
Lemma success_explicit h x z T g :
  wf_system h x -> reachable_form x h = (Ok (z, T), g) ->
  exists s n' (MA : 'M[F]_n'.+1) (MB : 'cV[F]_n'.+1)
         (MC : 'rV[F]_n'.+1) (MD : 'M[F]_1),
    [/\ heap_get h x = Some (System s),
        s = StateSpace.Build (StateSpace.A s) (StateSpace.B s)
              (StateSpace.C s) (StateSpace.D s) n'.+1 1 1,
        [/\ heap_get h (StateSpace.A s) = Some (Array (NdArray MA)),
            heap_get h (StateSpace.B s) = Some (Array (NdArray MB)),
            heap_get h (StateSpace.C s) = Some (Array (NdArray MC))
          & heap_get h (StateSpace.D s) = Some (Array (NdArray MD))],
        krylov MA MB \in unitmx
      & [/\ z = zloc h MA MB MC MD,
            T = NdArray (krylov (reach_A n' (char_poly MA)) (reach_B n')
                           *m invmx (krylov MA MB))
          & g = final_heap h s MA MB MC MD]].
Proof.
rewrite /wf_system; case ex: (heap_get h x) => [[|s]|] //.
case: s ex => lA lB lC lD n i o ex /= /and4P[].
case/has_shapeP => MA eA; case/has_shapeP => MB eB.
case/has_shapeP => MC eC; case/has_shapeP => MD eD.
case siso: ((i == 1%N) && (o == 1%N)); last first.
  by rewrite (reachable_form_mimo ex).
case/andP: siso => /eqP ei /eqP eo.
move: MB MC MD eB eC eD ex; rewrite {i}ei {o}eo => MB MC MD eB eC eD ex.
case: n MA MB MC eA eB eC ex => [|n'] MA MB MC eA eB eC ex.
  by have [g2 ->] := reachable_form_no_state ex erefl erefl eA eB eC eD.
rewrite (reachable_form_run ex erefl erefl erefl eA eB eC eD).
case: ifP => reach // [<- <- <-].
by exists (StateSpace.Build lA lB lC lD n'.+1 1 1), n', MA, MB, MC, MD.
Qed.

Section Result.

Variables (h : heap) (xs : StateSpace.t) (n' : nat).
Variables (MA : 'M[F]_n'.+1) (MB : 'cV[F]_n'.+1) (MC : 'rV[F]_n'.+1).
Variable MD : 'M[F]_1.

Let z := zloc h MA MB MC MD.
Let g := final_heap h xs MA MB MC MD.

(** The [StateSpace] instance the call returns. *)
Definition final_sys : StateSpace.t :=
  StateSpace.Build (z + 2) (z + 1) (z + 3) (zD h xs) n'.+1 1 1.

Lemma final_get_sys : heap_get g z = Some (System final_sys).
Proof.
by rewrite /g /final_heap /final_sys /z zloc_size heap_get_cat_new0.
Qed.

Lemma final_get_A :
  heap_get g (z + 2) = Some (Array (NdArray (reach_A n' (char_poly MA)))).
Proof. by rewrite /g /final_heap /z zloc_size heap_get_cat_new. Qed.

Lemma final_get_B : heap_get g (z + 1) = Some (Array (NdArray (reach_B n'))).
Proof. by rewrite /g /final_heap /z zloc_size heap_get_cat_new. Qed.

Lemma zloc_fresh : size h <= z.
Proof. by rewrite /z /zloc leq_addr. Qed.

Lemma final_get_C :
  heap_get g (z + 3) =
  Some (Array (NdArray (MC *m invmx (krylov (reach_A n' (char_poly MA))
                                       (reach_B n')
                                     *m invmx (krylov MA MB))))).
Proof. by rewrite /g /final_heap /z zloc_size heap_get_cat_new. Qed.

Lemma final_get_D :
  heap_get h (StateSpace.D xs) = Some (Array (NdArray MD)) ->
  heap_get g (zD h xs) = Some (Array (NdArray MD)).
Proof.
move=> eD; rewrite /g /final_heap /zD /copied; case: share_D => /=.
  by rewrite -catA (heap_get_cat_old _ eD).
by rewrite -catA heap_get_cat_new.
Qed.

Lemma final_wf :
  heap_get h (StateSpace.D xs) = Some (Array (NdArray MD)) ->
  wf_system g z.
Proof.
move=> eD; rewrite /wf_system final_get_sys /has_shape /=.
by rewrite final_get_A final_get_B final_get_C (final_get_D eD) /= !eqxx.
Qed.

Lemma zD_fresh_or_shared :
  if share_D then zD h xs = StateSpace.D xs else size h <= zD h xs.
Proof. by rewrite /zD; case: share_D => //; rewrite leq_addr. Qed.

End Result.

(** Similar matrices have the same characteristic polynomial. *)
Lemma char_poly_conj n (P X : 'M[F]_n) :
  P \in unitmx -> char_poly (P *m X *m invmx P) = char_poly X.
Proof.
move=> uP; rewrite /char_poly /char_poly_mx.
set Pp := map_mx polyC P; set Pi := map_mx polyC (invmx P).
have PpPi : Pp *m Pi = 1%:M by rewrite -map_mxM mulmxV // map_mx1.
have -> : 'X%:M - map_mx polyC (P *m X *m invmx P) =
          Pp *m ('X%:M - map_mx polyC X) *m Pi.
  rewrite !map_mxM mulmxBr mulmxBl -/Pp -/Pi; congr (_ - _).
  by rewrite scalar_mxC -mulmxA PpPi mulmx1.
by rewrite !det_mulmx mulrAC -det_mulmx PpPi det1 mul1r.
Qed.


Lemma heap_get_inj (g : heap) l s1 s2 :
  heap_get g l = Some (System s1) -> heap_get g l = Some (System s2) ->
  s1 = s2.
Proof. by move=> -> []. Qed.

(** X1 (no states): on a well-formed SISO system with no state the store
    of [zsys.B[0, 0] = 1] is out of bounds, and [reachable_form] raises
    [IndexError]. *)
Theorem no_state_index_error h x s :
  wf_system h x -> heap_get h x = Some (System s) ->
  StateSpace.inputs s = 1%N -> StateSpace.outputs s = 1%N ->
  StateSpace.states s = 0%N ->
  exists g, reachable_form x h = (Raise IndexError, g).
Proof.
move=> wf ex ei eo en; have out := reachable_form_outcome wf.
inversion out as
  [s2 ex2 ns e | s2 g MA MB ex2 en2 ei2 eo2 eA eB e
  | s2 n' g MA MB ex2 en2 ei2 eo2 eA eB ns e
  | s2 n' z g MA MB MC MD Az Bz Tzx ex2 en2 ei2 eo2 eA eB eC eD reach
      oA oB oC oD e].
- by move: ns; rewrite -(heap_get_inj ex ex2) ei eo.
- by exists g.
- by move: en2; rewrite -(heap_get_inj ex ex2) en.
by move: en2; rewrite -(heap_get_inj ex ex2) en.
Qed.



(** X11 (the errors of a well-formed call): on a well-formed system
    [reachable_form] raises nothing but the unsupported-feature error, the
    [IndexError] of a system without states and the singular-matrix error
    of [inv]; no shape or type error can occur. *)
Theorem only_three_errors h x e g :
  wf_system h x -> reachable_form x h = (Raise e, g) ->
  [\/ e = ControlNotImplemented
            "Canonical forms for MIMO systems not yet supported",
      e = IndexError
    | e = LinAlgError "Singular matrix"].
Proof.
move=> wf run; move: (reachable_form_outcome wf); rewrite run => out.
by inversion out; [apply: Or31 | apply: Or32 | apply: Or33].
Qed.

(** X12 (rejection exactly of non-SISO systems): on a well-formed system
    [reachable_form] raises [ControlNotImplemented] if and only if the
    input count or the output count differs from 1 (zero included). *)
Theorem unsupported_iff_not_siso h x s :
  wf_system h x -> heap_get h x = Some (System s) ->
  (exists msg g,
     reachable_form x h = (Raise (ControlNotImplemented msg), g)) <->
  (StateSpace.inputs s != 1%N) || (StateSpace.outputs s != 1%N).
Proof.
move=> wf ex; rewrite -negb_and; split; last first.
  move/negbTE => ns; rewrite (reachable_form_mimo ex ns).
  by do 2!eexists.
case=> msg [g run]; move: (reachable_form_outcome wf); rewrite run => out.
inversion out as [s2 ex2 ns e | | |]; subst g.
by rewrite (heap_get_inj ex ex2) ns.
Qed.

(** X13 (the dispatcher never mutates its input): whatever the form name,
    the store [canonical_form] leaves extends the store it was given. *)
Theorem canonical_form_frame x form h :
  exists l, (canonical_form x form h).2 = h ++ l.
Proof.
rewrite /canonical_form; case: String.eqb; first exact: reachable_form_frame.
by exists [::]; rewrite cats0.
Qed.





(** X7 (characteristic polynomial): on success [poly] returns the same
    coefficients on the returned [A] as on the input [A]. *)
Theorem poly_preserved h x z T g :
  wf_system h x -> reachable_form x h = (Ok (z, T), g) ->
  exists xA zA p,
    [/\ attr_value h x StateSpace.A = Some xA,
        attr_value g z StateSpace.A = Some zA,
        poly xA = Ok p & poly zA = Ok p].
Proof.
move=> wf run.
case: (success_inv wf run)
  => s n' MA MB MC MD ex _ _ _ eA _ _ _ reach _ oA _ _ _.
exists (NdArray MA), (NdArray (reach_A n' (char_poly MA))),
       (rev (char_poly MA)).
split=> //; [exact: attr_valueE ex eA | exact: polyE |].
by rewrite polyE -(Tzx_A reach) char_poly_conj // (Tzx_unit reach).
Qed.

(** X9 (no aliasing): on success the returned system is a new object, and
    the arrays bound to its [A], [B] and [C] are new objects: none of them
    existed in the store before the call. *)
Theorem result_fresh h x z T g :
  wf_system h x -> reachable_form x h = (Ok (z, T), g) ->
  exists zs,
    [/\ heap_get g z = Some (System zs), size h <= z,
        size h <= StateSpace.A zs, size h <= StateSpace.B zs
      & size h <= StateSpace.C zs].
Proof.
move=> wf run.
have [s [n' [MA [MB [MC [MD [ex es _ _ [-> _ ->]]]]]]]] :=
  success_explicit wf run.
exists (final_sys h s MA MB MC MD); split=> /=.
- exact: final_get_sys.
- exact: zloc_fresh.
- by rewrite (leq_trans (zloc_fresh h MA MB MC MD)) // leq_addr.
- by rewrite (leq_trans (zloc_fresh h MA MB MC MD)) // leq_addr.
by rewrite (leq_trans (zloc_fresh h MA MB MC MD)) // leq_addr.
Qed.

(** X10 (the result is a system of the same size): on success the returned
    system is well formed, it has the state, input and output counts of
    the input system, and [T] is square of the order of the system. *)
Theorem result_well_formed h x z T g :
  wf_system h x -> reachable_form x h = (Ok (z, T), g) ->
  exists s zs,
    [/\ heap_get h x = Some (System s), heap_get g z = Some (System zs),
        wf_system g z,
        [/\ StateSpace.states zs = StateSpace.states s,
            StateSpace.inputs zs = StateSpace.inputs s
          & StateSpace.outputs zs = StateSpace.outputs s]
      & shape T = (StateSpace.states s, StateSpace.states s)].
Proof.
move=> wf run.
have [s [n' [MA [MB [MC [MD [ex es [_ _ _ eD] _ [-> -> ->]]]]]]]] :=
  success_explicit wf run.
exists s, (final_sys h s MA MB MC MD); split=> //.
- exact: final_get_sys.
- exact: final_wf.
- by rewrite es.
by rewrite es.
Qed.

(** X8 (idempotence): applying [reachable_form] to the system it returned
    succeeds, with the identity as transformation and a system that has
    the same [A], [B], [C] and [D]. *)
Theorem reachable_form_idempotent h x z T g :
  wf_system h x -> reachable_form x h = (Ok (z, T), g) ->
  exists z2 T2 g2 n,
    [/\ reachable_form z g = (Ok (z2, T2), g2),
        T2 = NdArray (1%:M : 'M[F]_n)
      & [/\ attr_value g2 z2 StateSpace.A = attr_value g z StateSpace.A,
            attr_value g2 z2 StateSpace.B = attr_value g z StateSpace.B,
            attr_value g2 z2 StateSpace.C = attr_value g z StateSpace.C
          & attr_value g2 z2 StateSpace.D = attr_value g z StateSpace.D]].
Proof.
move=> wf run.
have [s [n' [MA [MB [MC [MD [ex es [eA eB eC eD] reach [-> _ ->]]]]]]]] :=
  success_explicit wf run.
set z1 := zloc h MA MB MC MD; set g1 := final_heap h s MA MB MC MD.
set Az := reach_A n' (char_poly MA); set Bz := reach_B n'.
set Tz := krylov Az Bz *m invmx (krylov MA MB); set Cz := MC *m invmx Tz.
have uK : krylov Az Bz \in unitmx := krylov_reach_unit n' (char_poly MA).
have cp : char_poly Az = char_poly MA.
  by rewrite /Az -(Tzx_A reach) char_poly_conj // (Tzx_unit reach).
have T1 : krylov (reach_A n' (char_poly Az)) Bz *m invmx (krylov Az Bz)
          = 1%:M by rewrite cp mulmxV.
have eD1 := final_get_D MA MB MC eD.
have run2 := reachable_form_ok (final_get_sys h s MA MB MC MD) erefl erefl
  erefl (final_get_A h s MA MB MC MD) (final_get_B h s MA MB MC MD)
  (final_get_C h s MA MB MC MD) eD1 uK.
rewrite -/g1 -/z1 -/Az -/Bz -/Tz -/Cz in run2 eD1.
exists (zloc g1 Az Bz Cz MD), (NdArray (1%:M : 'M_n'.+1)),
       (final_heap g1 (final_sys h s MA MB MC MD) Az Bz Cz MD), n'.+1.
split=> //; first by rewrite run2 T1.
split.
- by rewrite !final_A cp.
- by rewrite !final_B.
- by rewrite !final_C T1 invmx1 mulmx1.
rewrite (@final_D g1 (final_sys h s MA MB MC MD) _ Az Bz Cz _ eD1).
by rewrite (final_D _ _ _ eD).
Qed.

Lemma krylov_one (X : 'M[F]_1) (b : 'cV[F]_1) : krylov X b = b.
Proof. by apply/matrixP => i j; rewrite mxE !ord1 expr0 mul1mx. Qed.

Lemma reach_A_one (X : 'M[F]_1) : reach_A 0 (char_poly X) = X.
Proof.
apply/matrixP => i j; rewrite mxE !ord1 /= subnn char_poly_lead divr1.
by rewrite char_poly_det expr1 mulN1r opprK det_mx11.
Qed.

Lemma getitem00 (X : 'M[F]_1) v : getitem (NdArray X) 0 0 = Ok v ->
  X ord0 ord0 = v.
Proof.
rewrite (getitem_nat X (ltn0Sn 0) (ltn0Sn 0)) => -[<-].
by congr (X _ _); apply: val_inj.
Qed.

(** X14 (one state): on a well-formed SISO system with one state,
    [A = [[a]]], [B = [[b]]], [C = [[c]]] and [b] not zero,
    [reachable_form] returns [T = [[1/b]]] and a system with
    [A = [[a]]], [B = [[1]]], [C = [[c * b]]]. *)
Theorem one_state_system h x s xA xB xC a b c :
  wf_system h x -> issiso x h = (Ok true, h) ->
  heap_get h x = Some (System s) -> StateSpace.states s = 1%N ->
  [/\ attr_value h x StateSpace.A = Some xA,
      attr_value h x StateSpace.B = Some xB
    & attr_value h x StateSpace.C = Some xC] ->
  [/\ getitem xA 0 0 = Ok a, getitem xB 0 0 = Ok b
    & getitem xC 0 0 = Ok c] ->
  b != 0 ->
  exists z T g zA zB zC,
    [/\ reachable_form x h = (Ok (z, T), g),
        getitem T 0 0 = Ok b^-1,
        attr_value g z StateSpace.A = Some zA /\ getitem zA 0 0 = Ok a,
        attr_value g z StateSpace.B = Some zB /\ getitem zB 0 0 = Ok 1
      & attr_value g z StateSpace.C = Some zC /\
        getitem zC 0 0 = Ok (c * b)].
Proof.
move=> wf siso ex0 e1 [oxA oxB oxC] [ga gb gc] b0.
have out := reachable_form_outcome wf.
inversion out as
  [s2 ex ns e2 | s2 g MA MB ex en ei eo eA eB e2
  | s2 n' g MA MB ex en ei eo eA eB ns e2
  | s2 n' z g MA MB MC MD Az Bz Tzx ex en ei eo eA eB eC eD reach
      oA oB oC oD e2].
- by move: siso; rewrite (issisoE ex) ns.
- by move: e1; rewrite (heap_get_inj ex0 ex) en.
- move: en; rewrite -(heap_get_inj ex0 ex) e1 => -[en']; subst n'.
  move: oxB gb; rewrite (attr_valueE ex eB) => -[<-] /getitem00 eb.
  move: ns; rewrite krylov_one unitmxE det_mx11 unitfE.
  by rewrite [MB _ _](_ : _ = b) ?b0 // -eb; congr (MB _ _); apply: val_inj.
move: en; rewrite -(heap_get_inj ex0 ex) e1 => -[en']; subst n'.
move: oxA ga oxB gb oxC gc.
rewrite (attr_valueE ex eA) (attr_valueE ex eB) (attr_valueE ex eC).
move=> [<-] /getitem00 ea [<-] /getitem00 eb [<-] /getitem00 ec.
have eBz : Bz = 1%:M.
  by apply/matrixP => i j; rewrite !mxE !ord1.
have eT : Tzx = b^-1%:M.
  rewrite /Tzx krylov_one eBz mul1mx krylov_one [MB]mx11_scalar.
  by rewrite -[MB 0 0]/(MB ord0 ord0) eb invmx_scalar.
exists z, (NdArray Tzx), g, (NdArray Az), (NdArray Bz),
       (NdArray (MC *m invmx Tzx)).
split=> //.
- by rewrite (getitem_nat _ (ltn0Sn 0) (ltn0Sn 0)) eT mxE eqxx mulr1n.
- split=> //; rewrite (getitem_nat _ (ltn0Sn 0) (ltn0Sn 0)) /Az reach_A_one.
  by rewrite -ea; congr (Ok (MA _ _)); apply: val_inj.
- by split=> //; rewrite (getitem_nat _ (ltn0Sn 0) (ltn0Sn 0)) eBz mxE eqxx.
split=> //; rewrite (getitem_nat _ (ltn0Sn 0) (ltn0Sn 0)) eT invmx_scalar invrK.
by rewrite mxE big_ord1 mxE eqxx mulr1n -ec; congr (Ok (MC _ _ * _));
   apply: val_inj.
Qed.

(** A one-state SISO system [A = [[a]]], [B = [[b]]], [C = [[c]]],
    [D = [[0]]]. *)
Definition one_state_heap (a b c : F) : heap :=
  [:: Array (NdArray (a%:M : 'M[F]_1)); Array (NdArray (b%:M : 'M[F]_1));
      Array (NdArray (c%:M : 'M[F]_1)); Array (zeros (1%N, 1%N));
      System (StateSpace.Build 0 1 2 3 1 1 1)].

Lemma getitem_scalar (a : F) : getitem (NdArray (a%:M : 'M[F]_1)) 0 0 = Ok a.
Proof. by rewrite (getitem_nat _ (ltn0Sn 0) (ltn0Sn 0)) mxE eqxx mulr1n. Qed.


Lemma mimo_wf : wf_system mimo_heap 4.
Proof. by rewrite /wf_system /has_shape /= !eqxx. Qed.

Lemma no_state_wf : wf_system no_state_heap 4.
Proof. by rewrite /wf_system /has_shape /= !eqxx. Qed.

Lemma one_state_wf a b c : wf_system (one_state_heap a b c) 4.
Proof. by rewrite /wf_system /has_shape /= !eqxx. Qed.

End Numpy.

(** * The properties at concrete inputs

    The scenario of the specification over the rationals, with a copy
    constructor that copies [D]. *)

Lemma companion_structure_witness :
  exists n (MA : 'M[rat]_n) (zA : ndarray rat),
    let p := rev (char_poly MA) in
    [/\ exists2 s, heap_get (scenario_heap rat) scenario_sys = Some (System rat s)
                 & StateSpace.states s = n,
        attr_value (scenario_heap rat) scenario_sys StateSpace.A
          = Some (NdArray MA),
        attr_value (scenario_final rat false) (scenario_z rat false)
          StateSpace.A = Some zA
      & shape zA = (n, n)] /\
    [/\ forall i, i.+1 < n -> getitem zA i.+1 i = Ok 1,
        forall i j, i < n -> j < n -> i != 0%N -> i != j.+1 ->
          getitem zA i j = Ok 0
      & forall i, i < n -> getitem zA 0 i = Ok (- nth 0 p i.+1 / nth 0 p 0)].
Proof.
exact: (companion_structure (scenario_wf rat) (scenario_run rat false)).
Defined.

Lemma coordinate_change_witness :
  exists z T h' zA zB iT,
    [/\ reachable_form false scenario_sys (scenario_heap rat)
          = (Ok (z, T), h'),
        attr_value h' z StateSpace.A = Some zA,
        attr_value h' z StateSpace.B = Some zB,
        inv T = Ok iT
      & rbind (matmul T (NdArray (scenario_A rat)))
              (fun TA => matmul TA iT) = Ok zA /\
        matmul T (NdArray (scenario_B rat)) = Ok zB].
Proof.
apply: (@coordinate_change rat false (scenario_heap rat) scenario_sys
          (NdArray (scenario_A rat)) (NdArray (scenario_B rat))
          (NdArray (krylov (scenario_A rat) (scenario_B rat)))
          (NdArray (invmx (krylov (scenario_A rat) (scenario_B rat))))).
- exact: scenario_wf.
- reflexivity.
- reflexivity.
- reflexivity.
- exact: ctrbE.
- by rewrite invE scenario_reachable.
Defined.

Lemma B_normalized_witness :
  exists s zB,
    [/\ heap_get (scenario_heap rat) scenario_sys = Some (System rat s),
        attr_value (scenario_final rat false) (scenario_z rat false)
          StateSpace.B = Some zB,
        shape zB = (StateSpace.states s, 1%N)
      & forall i, i < StateSpace.states s ->
          getitem zB i 0 = Ok (if i == 0%N then 1 else 0)].
Proof.
exact: (B_normalized (scenario_wf rat) (scenario_run rat false)).
Defined.

Lemma mimo_rejected_witness :
  reachable_form false 4 (mimo_heap rat) =
  (Raise (ControlNotImplemented
            "Canonical forms for MIMO systems not yet supported"),
   mimo_heap rat).
Proof.
apply: (@mimo_rejected rat false (mimo_heap rat) 4
          (StateSpace.Build 0 1 2 3 1 2 1)).
- reflexivity.
- reflexivity.
Defined.

Lemma canonical_form_dispatch_witness :
  exists msg,
    canonical_form false scenario_sys "observable" (scenario_heap rat)
      = (Raise (ControlNotImplemented msg), scenario_heap rat) /\
    contains "observable" msg.
Proof.
apply: (proj1 (canonical_form_dispatch false scenario_sys "observable"
                 (scenario_heap rat))).
discriminate.
Defined.

Lemma D_preserved_witness :
  exists2 d,
    attr_value (scenario_heap rat) scenario_sys StateSpace.D = Some d
  & attr_value (scenario_final rat false) (scenario_z rat false)
      StateSpace.D = Some d.
Proof.
exact: (D_preserved (scenario_wf rat) (scenario_run rat false)).
Defined.

Lemma input_not_mutated_witness :
  attr_value
    (reachable_form false scenario_sys (scenario_heap rat)).2
    scenario_sys StateSpace.A
  = Some (NdArray (scenario_A rat)).
Proof.
apply: (proj2 (proj2 (input_not_mutated false scenario_sys
                        (scenario_heap rat)))).
reflexivity.
Defined.

Lemma zero_B_singular_witness :
  exists g,
    reachable_form false 4 (zero_B_heap rat)
      = (Raise (LinAlgError "Singular matrix"), g).
Proof.
apply: (@zero_B_singular rat false (zero_B_heap rat) 4 2).
- exact: zero_B_wf.
- reflexivity.
- reflexivity.
- reflexivity.
Defined.

(** On a system without states the call fails before any inversion:
    [zsys.B[0, 0] = 1] is out of bounds. *)
Lemma zero_B_no_state :
  [/\ wf_system (no_state_heap rat) 4,
      issiso 4 (no_state_heap rat) = (Ok true, no_state_heap rat),
      attr_value (no_state_heap rat) 4 StateSpace.B
        = Some (zeros rat (0%N, 1%N))
    & exists g,
        reachable_form false 4 (no_state_heap rat) = (Raise IndexError, g)] /\
  ~ (exists msg g,
       reachable_form false 4 (no_state_heap rat)
         = (Raise (LinAlgError msg), g)).
Proof.
have [g run] := no_state_run rat false.
split; first by split=> //; exists g.
by case=> msg [g2]; rewrite run.
Qed.

Lemma Apoly_monic_witness :
  let Apoly := rev (char_poly (scenario_A rat)) in
  [/\ nth 0 Apoly 0 = 1, nth 0 Apoly 0 != 0
    & exists s z zA,
        [/\ heap_get (scenario_heap rat) scenario_sys = Some (System rat s),
            size (scenario_heap rat) <= z,
            attr_value (scenario_final rat false) z StateSpace.A = Some zA,
            forall i, i < StateSpace.states s ->
              getitem zA 0 i = Ok (- nth 0 Apoly i.+1)
          & forall z' T,
              Ok (scenario_z rat false, NdArray (scenario_T rat)) = Ok (z', T)
              -> z' = z]].
Proof.
apply: (@Apoly_monic rat false (scenario_heap rat) scenario_sys
          (NdArray (scenario_A rat))).
- exact: scenario_wf.
- reflexivity.
- reflexivity.
- exact: polyE.
- exact: scenario_run.
Defined.

Lemma no_state_index_error_witness :
  exists g, reachable_form false 4 (no_state_heap rat) = (Raise IndexError, g).
Proof.
apply: (@no_state_index_error rat false (no_state_heap rat) 4
          (StateSpace.Build 0 1 2 3 0 1 1)).
- exact: no_state_wf.
- reflexivity.
- reflexivity.
- reflexivity.
- reflexivity.
Defined.






Lemma poly_preserved_witness :
  exists xA zA p,
    [/\ attr_value (scenario_heap rat) scenario_sys StateSpace.A = Some xA,
        attr_value (scenario_final rat false) (scenario_z rat false)
          StateSpace.A = Some zA,
        poly xA = Ok p & poly zA = Ok p].
Proof.
exact: (poly_preserved (scenario_wf rat) (scenario_run rat false)).
Defined.

Lemma reachable_form_idempotent_witness :
  exists z2 T2 g2 n,
    [/\ reachable_form false (scenario_z rat false) (scenario_final rat false)
          = (Ok (z2, T2), g2),
        T2 = NdArray (1%:M : 'M[rat]_n)
      & [/\ attr_value g2 z2 StateSpace.A =
              attr_value (scenario_final rat false) (scenario_z rat false)
                StateSpace.A,
            attr_value g2 z2 StateSpace.B =
              attr_value (scenario_final rat false) (scenario_z rat false)
                StateSpace.B,
            attr_value g2 z2 StateSpace.C =
              attr_value (scenario_final rat false) (scenario_z rat false)
                StateSpace.C
          & attr_value g2 z2 StateSpace.D =
              attr_value (scenario_final rat false) (scenario_z rat false)
                StateSpace.D]].
Proof.
exact: (reachable_form_idempotent (scenario_wf rat) (scenario_run rat false)).
Defined.

Lemma result_fresh_witness :
  exists zs,
    [/\ heap_get (scenario_final rat false) (scenario_z rat false)
          = Some (System rat zs),
        size (scenario_heap rat) <= scenario_z rat false,
        size (scenario_heap rat) <= StateSpace.A zs,
        size (scenario_heap rat) <= StateSpace.B zs
      & size (scenario_heap rat) <= StateSpace.C zs].
Proof.
exact: (result_fresh (scenario_wf rat) (scenario_run rat false)).
Defined.

Lemma result_well_formed_witness :
  exists s zs,
    [/\ heap_get (scenario_heap rat) scenario_sys = Some (System rat s),
        heap_get (scenario_final rat false) (scenario_z rat false)
          = Some (System rat zs),
        wf_system (scenario_final rat false) (scenario_z rat false),
        [/\ StateSpace.states zs = StateSpace.states s,
            StateSpace.inputs zs = StateSpace.inputs s
          & StateSpace.outputs zs = StateSpace.outputs s]
      & shape (NdArray (scenario_T rat))
          = (StateSpace.states s, StateSpace.states s)].
Proof.
exact: (result_well_formed (scenario_wf rat) (scenario_run rat false)).
Defined.

Lemma only_three_errors_witness :
  [\/ ControlNotImplemented
        "Canonical forms for MIMO systems not yet supported"
      = ControlNotImplemented
          "Canonical forms for MIMO systems not yet supported",
      ControlNotImplemented
        "Canonical forms for MIMO systems not yet supported" = IndexError
    | ControlNotImplemented
        "Canonical forms for MIMO systems not yet supported"
      = LinAlgError "Singular matrix"].
Proof.
apply: (@only_three_errors rat false (mimo_heap rat) 4 _ (mimo_heap rat)).
- exact: mimo_wf.
- reflexivity.
Defined.

Lemma unsupported_iff_not_siso_witness :
  (exists msg g,
     reachable_form false 4 (mimo_heap rat)
       = (Raise (ControlNotImplemented msg), g)) <->
  (2 != 1)%N || (1 != 1)%N.
Proof.
apply: (@unsupported_iff_not_siso rat false (mimo_heap rat) 4
          (StateSpace.Build 0 1 2 3 1 2 1)).
- exact: mimo_wf.
- reflexivity.
Defined.

Lemma one_state_system_witness :
  exists z T g zA zB zC,
    [/\ reachable_form false 4 (one_state_heap (2%:R : rat) 1 1)
          = (Ok (z, T), g),
        getitem T 0 0 = Ok (1 : rat)^-1,
        attr_value g z StateSpace.A = Some zA /\ getitem zA 0 0 = Ok 2%:R,
        attr_value g z StateSpace.B = Some zB /\ getitem zB 0 0 = Ok 1
      & attr_value g z StateSpace.C = Some zC /\
        getitem zC 0 0 = Ok (1 * 1)].
Proof.
apply: (@one_state_system rat false (one_state_heap (2%:R : rat) 1 1) 4
          (StateSpace.Build 0 1 2 3 1 1 1)
          (NdArray (2%:R%:M : 'M[rat]_1)) (NdArray (1%:M : 'M[rat]_1))
          (NdArray (1%:M : 'M[rat]_1))).
- exact: one_state_wf.
- reflexivity.
- reflexivity.
- reflexivity.
- by split.
- by split; exact: getitem_scalar.
- exact: oner_neq0.
Defined.
